(** * A miniature GPT: causal mask, embedding, decoder block and sampler

    Shallow embedding of the notebook
    [GPU_Emissions_text_generation_with_miniature_gpt_ct.ipynb]:
    [causal_attention_mask], [TransformerBlock], [TokenAndPositionEmbedding]
    and the [TextGenerator] callback.

    Tensors are lists (a matrix is a list of rows, a batch a list of
    matrices); integer tensor entries and Python integers are [Z]; Python
    lists live in a store, because [TextGenerator] keeps a reference to the
    prompt list it is given. *)

From Stdlib Require Import ZArith QArith Qround Qpower Lia.
From stdpp Require Import base list sorting gmap strings.

Local Open Scope Z_scope.

(** * The program *)

(** ** Tensor helpers shared by the layers *)

(** [ops.arange(n)]: the integers [0, 1, ..., n-1]. *)
Definition arange (n : nat) : list Z := Z.of_nat <$> seq 0 n.

(** [ops.tile(t, [reps, 1, 1])]: [reps] copies of [t] along the first axis. *)
Definition tile0 {A} (reps : nat) (t : list A) : list A :=
  concat (replicate reps t).

(** ** Exceptions of fallible operations *)

Inductive exn :=
  | IndexError            (* list or array index out of range *)
  | ZeroDivisionError     (* integer modulo by zero *)
  | ValueError            (* numpy argument validation *)
  | InvalidArgumentError. (* backend op rejected its arguments *)

Inductive result (A : Type) :=
  | Ok (a : A)
  | Raise (e : exn).
Arguments Ok {A} a.
Arguments Raise {A} e.

Global Instance result_ret : MRet result := λ A a, Ok a.
Global Instance result_bind : MBind result := λ A B f m,
  match m with Ok a => f a | Raise e => Raise e end.

Definition from_option {A} (e : exn) (o : option A) : result A :=
  match o with Some a => Ok a | None => Raise e end.

(** ** Scalars

    Weights and activations are floating-point numbers in the notebook.  The
    layers below are written over an abstract scalar type with the operations
    the layers use, so that every statement about them holds for whatever
    arithmetic interprets these operations. *)

Class Scalar (F : Type) := {
  f0 : F;                    (* 0.0 *)
  f1 : F;                    (* 1.0 *)
  fadd : F → F → F;
  fsub : F → F → F;
  fmul : F → F → F;
  fdiv : F → F → F;
  fexp : F → F;
  fsqrt : F → F;
  fmaximum : F → F → F;
  flt : F → F → bool;
  fof_nat : nat → F;         (* cast of an integer dimension *)
}.

(** ** Causal mask generator *)

Module Mask.

(** [m = i >= j - n_src + n_dest], with [i] a column of shape [(n_dest, 1)]
    and [j] a row of shape [(n_src,)]: broadcasting gives an
    [n_dest] x [n_src] matrix of booleans. *)
Definition lower_right (n_dest n_src : nat) : list (list bool) :=
  (λ i, (λ j, Z.geb i (j - Z.of_nat n_src + Z.of_nat n_dest)) <$> arange n_src)
    <$> arange n_dest.

(** [causal_attention_mask(batch_size, n_dest, n_src, "bool")]: the matrix is
    reshaped to [[1, n_dest, n_src]] and tiled [batch_size] times along the
    batch axis.  The cast to the requested dtype is the identity for
    ["bool"], the only dtype the notebook asks for. *)
Definition causal_attention_mask (batch_size n_dest n_src : nat)
  : list (list (list bool)) :=
  let m := lower_right n_dest n_src in
  let mask := [m] in
  tile0 batch_size mask.

(** Entry [M[b][i][j]] of a rank-3 boolean tensor. *)
Definition entry (M : list (list (list bool))) (b i j : nat) : option bool :=
  m ← M !! b; row ← m !! i; row !! j.

(** The same comparison carried out on 32-bit signed tensor entries. *)
Definition wrap32 (z : Z) : Z := (z + 2 ^ 31) `mod` 2 ^ 32 - 2 ^ 31.

Definition lower_right_int32 (n_dest n_src : nat) : list (list bool) :=
  (λ i, (λ j, Z.geb i (wrap32 (wrap32 (j - Z.of_nat n_src) + Z.of_nat n_dest)))
          <$> arange n_src)
    <$> arange n_dest.

End Mask.

(** ** Token and position embedding *)

Module Embedding.
Section Embedding.
Context {F : Type} `{Scalar F}.

(** [layers.Embedding]: one table row per id.  The rows are taken with the
    framework's [take]: a negative id counts from the end of the table, and
    an id that is outside the table after that is an error. *)
Definition embedding (table : list (list F)) (ids : list Z)
  : result (list (list F)) :=
  mapM (λ id : Z,
          let id := if bool_decide (id < 0)
                    then id + Z.of_nat (length table) else id in
          if bool_decide (0 ≤ id)
          then from_option InvalidArgumentError (table !! Z.to_nat id)
          else Raise InvalidArgumentError) ids.

(** The two tables built by [__init__(maxlen, vocab_size, embed_dim)]:
    [token_emb] has [vocab_size] rows and [pos_emb] has [maxlen] rows. *)
Record TokenAndPositionEmbedding := {
  token_emb : list (list F);
  pos_emb : list (list F);
}.

(** [call(x)] on one sequence of token ids.  The position ids are
    [arange(0, maxlen, 1)] with [maxlen] the length of [x] itself. *)
Definition call (self : TokenAndPositionEmbedding) (x : list Z)
  : result (list (list F)) :=
  let maxlen := length x in
  let positions := arange maxlen in
  positions ← embedding (pos_emb self) positions;
  x ← embedding (token_emb self) x;
  Ok (zip_with (zip_with fadd) x positions).

(** On a batch, [x + positions] broadcasts the same position rows over every
    sequence of the batch. *)
Definition call_batch (self : TokenAndPositionEmbedding) (x : list (list Z))
  : result (list (list (list F))) :=
  mapM (call self) x.

End Embedding.

Global Arguments TokenAndPositionEmbedding F : clear implicits.

End Embedding.

(** ** Transformer decoder block

    [TransformerBlock.call] composes layers of the framework: dense layers,
    layer normalisation, dropout and multi-head attention.  These layers are
    written out below as their documentation describes them, on lists of
    scalars. *)

Module Block.
Section Block.
Context {F : Type} `{Scalar F}.

Definition vadd (u v : list F) : list F := zip_with fadd u v.
Definition fsum (v : list F) : F := foldr fadd f0 v.
Definition dot (u v : list F) : F := fsum (zip_with fmul u v).

(** [layers.Dense(units, activation)], applied to the last axis.  The kernel
    is kept as the list of its columns, one weight vector per output unit. *)
Record Dense := {
  kernel : list (list F);
  bias : list F;
}.

Definition dense (l : Dense) (activation : F → F) (x : list F) : list F :=
  activation <$> vadd (dot x <$> kernel l) (bias l).

Definition relu (a : F) : F := fmaximum a f0.

(** [layers.LayerNormalization(epsilon=1e-6)]: each row is centred, divided by
    the square root of its variance plus [epsilon], scaled and shifted. *)
Record LayerNormalization := {
  gamma : list F;
  beta : list F;
  epsilon : F;
}.

Definition layer_norm (l : LayerNormalization) (x : list F) : list F :=
  let n := fof_nat (length x) in
  let mean := fdiv (fsum x) n in
  let centred := (λ a, fsub a mean) <$> x in
  let variance := fdiv (fsum ((λ a, fmul a a) <$> centred)) n in
  let inv := fdiv f1 (fsqrt (fadd variance (epsilon l))) in
  vadd (zip_with fmul ((λ a, fmul a inv) <$> centred) (gamma l)) (beta l).

(** [layers.Dropout(rate)].  The layer is the identity unless it is called in
    training mode with a positive rate; then the entry at [(b, i, c)] is kept
    and rescaled, or zeroed, as the random source [keep] decides. *)
Record Dropout := { rate : F }.

Definition dropout_enabled (l : Dropout) (training : bool) : bool :=
  training && flt f0 (rate l).

Definition dropout (l : Dropout) (training : bool) (keep : nat → nat → nat → bool)
    (x : list (list (list F))) : list (list (list F)) :=
  if dropout_enabled l training
  then imap (λ b, imap (λ i, imap (λ c a,
         if keep b i c then fdiv a (fsub f1 (rate l)) else f0))) x
  else x.

(** [layers.MultiHeadAttention(num_heads, key_dim)]: per head, dense
    projections to queries, keys and values and one slice of the output
    projection. *)
Record AttentionHead := {
  query_dense : Dense;
  key_dense : Dense;
  value_dense : Dense;
  output_kernel : list (list F);
}.

Record MultiHeadAttention := {
  heads : list AttentionHead;
  key_dim : nat;
  output_bias : list F;
}.

(** Softmax over the positions the mask allows.  The framework adds a large
    negative number to the scores of the positions whose mask entry is false,
    so that their weights vanish; here such a position gets weight zero
    outright and takes no part in the normalisation. *)
Definition masked_softmax (scores : list F) (mask : list bool) : list F :=
  let e := zip_with (λ s (m : bool), if m then fexp s else f0) scores mask in
  let total := fsum e in
  zip_with (λ a (m : bool), if m then fdiv a total else f0) e mask.

(** One head on one example: scaled dot-product scores of every query row
    against all keys, masked softmax, weighted sum of the values.  The
    layer's own dropout on the weights has rate 0 and is left out. *)
Definition attend (l : MultiHeadAttention) (h : AttentionHead)
    (query value key : list (list F)) (mask : list (list bool))
  : list (list F) :=
  let scale := fdiv f1 (fsqrt (fof_nat (key_dim l))) in
  let q := (λ x, fmul scale <$> dense (query_dense h) id x) <$> query in
  let k := dense (key_dense h) id <$> key in
  let v := dense (value_dense h) id <$> value in
  zip_with (λ qi mi,
      let weights := masked_softmax (dot qi <$> k) mi in
      foldr vadd (replicate (key_dim l) f0)
            (zip_with (λ a vj, fmul a <$> vj) weights v))
    q mask.

(** [self.att(query, value, attention_mask=mask)] on one example; the keys
    are the values.  The heads' contexts are projected and summed onto the
    output bias. *)
Definition attention (l : MultiHeadAttention)
    (query value : list (list F)) (mask : list (list bool)) : list (list F) :=
  let key := value in
  let projected :=
    (λ h, (λ c, dot c <$> output_kernel h) <$> attend l h query value key mask)
      <$> heads l in
  foldr (zip_with vadd) (replicate (length query) (output_bias l)) projected.

Definition attention_batch (l : MultiHeadAttention)
    (query value : list (list (list F))) (mask : list (list (list bool)))
  : list (list (list F)) :=
  zip_with (λ qv m, attention l qv.1 qv.2 m) (zip query value) mask.

(** The layers created by [TransformerBlock.__init__]. *)
Record TransformerBlock := {
  att : MultiHeadAttention;
  ffn_hidden : Dense;             (* Dense(ff_dim, activation="relu") *)
  ffn_output : Dense;             (* Dense(embed_dim) *)
  layernorm1 : LayerNormalization;
  layernorm2 : LayerNormalization;
  dropout1 : Dropout;
  dropout2 : Dropout;
}.

(** A layer that acts on the last axis maps over the rows of every example;
    [x + y] on two batches of the same shape adds row by row. *)
Definition rowwise (f : list F → list F) (x : list (list (list F)))
  : list (list (list F)) :=
  (λ m : list (list F), f <$> m) <$> x.

Definition add_batch (x y : list (list (list F))) : list (list (list F)) :=
  zip_with (zip_with vadd) x y.

Definition ffn (self : TransformerBlock) (x : list F) : list F :=
  dense (ffn_output self) id (dense (ffn_hidden self) relu x).

(** [TransformerBlock.call(inputs)] on a batch of [seq_len] x [embed_dim]
    matrices.  [training] is the mode the framework calls the layer in and
    [rng l] the random source of the [l]-th dropout layer. *)
Definition call (self : TransformerBlock) (training : bool)
    (rng : nat → nat → nat → nat → bool) (inputs : list (list (list F)))
  : list (list (list F)) :=
  let batch_size := length inputs in
  let seq_len := length (default [] (head inputs)) in
  let causal_mask := Mask.causal_attention_mask batch_size seq_len seq_len in
  let attention_output := attention_batch (att self) inputs inputs causal_mask in
  let attention_output := dropout (dropout1 self) training (rng 0%nat) attention_output in
  let out1 := rowwise (layer_norm (layernorm1 self))
                (add_batch inputs attention_output) in
  let ffn_output := rowwise (ffn self) out1 in
  let ffn_output := dropout (dropout2 self) training (rng 1%nat) ffn_output in
  rowwise (layer_norm (layernorm2 self)) (add_batch out1 ffn_output).

(** The block on one example of the batch when both dropout layers are the
    identity. *)
Definition call_example (self : TransformerBlock) (x : list (list F))
  : list (list F) :=
  let seq_len := length x in
  let attention_output :=
    attention (att self) x x (Mask.lower_right seq_len seq_len) in
  let out1 := layer_norm (layernorm1 self) <$> zip_with vadd x attention_output in
  layer_norm (layernorm2 self) <$> zip_with vadd out1 (ffn self <$> out1).

End Block.

Global Arguments Dense F : clear implicits.
Global Arguments LayerNormalization F : clear implicits.
Global Arguments Dropout F : clear implicits.
Global Arguments AttentionHead F : clear implicits.
Global Arguments MultiHeadAttention F : clear implicits.
Global Arguments TransformerBlock F : clear implicits.

End Block.

(** ** Exact rational scalars

    An interpretation of the scalar operations on reduced fractions, with
    rational stand-ins for the exponential and the square root.  It is used
    to run the layers on small inputs. *)

Definition Q_exp (x : Q) : Q := Qred (Qpower 2 (Qfloor x)).

Definition Q_sqrt (x : Q) : Q :=
  Qred (Z.sqrt (Qfloor (x * 10000)) # 100).

Definition Q_ltb (x y : Q) : bool := negb (Qle_bool y x).

Global Instance Q_scalar : Scalar Q := {|
  f0 := 0%Q;
  f1 := 1%Q;
  fadd x y := Qred (x + y);
  fsub x y := Qred (x - y);
  fmul x y := Qred (x * y);
  fdiv x y := Qred (x / y);
  fexp := Q_exp;
  fsqrt := Q_sqrt;
  fmaximum x y := if Qle_bool x y then y else x;
  flt := Q_ltb;
  fof_nat n := inject_Z (Z.of_nat n);
|}.

(** ** A small block on rational scalars

    One head, three features per position; the weights are arbitrary small
    fractions. *)

Module Tiny.
Import Block.
Local Open Scope Q_scope.

Definition attention_head : AttentionHead Q := {|
  query_dense := {| kernel := [[1; 0; 1]; [0; 1; 0]; [1#2; 0; 1]]; bias := [0; 0; 0] |};
  key_dense := {| kernel := [[1; 1; 0]; [0; 1; 1]; [1; 0; 1#2]]; bias := [0; 1#2; 0] |};
  value_dense := {| kernel := [[1; 0; 0]; [1; 1; 0]; [0; 1; 2]]; bias := [0; 0; 1] |};
  output_kernel := [[1; 0; 1]; [0; 1; 0]; [0; 1#3; 1]];
|}.

Definition block : TransformerBlock Q := {|
  att := {| heads := [attention_head]; key_dim := 3; output_bias := [0; 1#2; 0] |};
  ffn_hidden := {| kernel := [[1; -1; 0]; [1; 1; 1]; [0; 1#2; -1]]; bias := [0; 0; 1#4] |};
  ffn_output := {| kernel := [[1; 0; 2]; [0; 1; 0]; [1; 1; 0]]; bias := [1; 0; 0] |};
  layernorm1 := {| gamma := [1; 1; 1]; beta := [0; 0; 0]; epsilon := 1 # 1000000 |};
  layernorm2 := {| gamma := [1; 2; 1]; beta := [0; 0; 1#2]; epsilon := 1 # 1000000 |};
  dropout1 := {| rate := 1 # 10 |};
  dropout2 := {| rate := 1 # 10 |};
|}.

(** Two inputs of three positions that differ at the last position only. *)
Definition input : list (list Q) := [[1; 2; 0]; [0; 1; 3]; [2; 2; 1]].
Definition input' : list (list Q) := [[1; 2; 0]; [0; 1; 3]; [5; 0; 4]].

(** Two random sources: one keeps every entry, one drops every entry. *)
Definition keep_all : nat → nat → nat → nat → bool := λ _ _ _ _, true.
Definition drop_all : nat → nat → nat → nat → bool := λ _ _ _ _, false.

(** An embedding with four tokens and three positions. *)
Definition embedding : Embedding.TokenAndPositionEmbedding Q := {|
  Embedding.token_emb := [[0; 0; 0]; [1; 0; 1#2]; [0; 2; 1]; [3; 1; 0]];
  Embedding.pos_emb := [[1#10; 0; 0]; [0; 1#10; 0]; [0; 0; 1#10]];
|}.

End Tiny.

(** ** Scalars with a value that is not a number

    Floating-point numbers include values that are not numbers.  Every
    arithmetic operation on such a value gives such a value, zero times it
    included, and every comparison with it is false.  Here [None] stands for
    it, the numbers are the reduced fractions of [Q_scalar], and a division
    by zero leaves the numbers. *)

Module NaN.
Import Block.





(** The weights of a block on fractions, as numbers of this scalar type. *)
Definition numbers (v : list Q) : list (option Q) := Some <$> v.
Definition rows (m : list (list Q)) : list (list (option Q)) := numbers <$> m.

Definition dense_of (l : Dense Q) : Dense (option Q) :=
  {| kernel := rows (kernel l); bias := numbers (bias l) |}.

Definition layer_norm_of (l : LayerNormalization Q) : LayerNormalization (option Q) :=
  {| gamma := numbers (gamma l); beta := numbers (beta l);
     epsilon := Some (epsilon l) |}.

Definition head_of (h : AttentionHead Q) : AttentionHead (option Q) :=
  {| query_dense := dense_of (query_dense h);
     key_dense := dense_of (key_dense h);
     value_dense := dense_of (value_dense h);
     output_kernel := rows (output_kernel h) |}.

Definition block_of (b : TransformerBlock Q) : TransformerBlock (option Q) :=
  {| att := {| heads := head_of <$> heads (att b);
               key_dim := key_dim (att b);
               output_bias := numbers (output_bias (att b)) |};
     ffn_hidden := dense_of (ffn_hidden b);
     ffn_output := dense_of (ffn_output b);
     layernorm1 := layer_norm_of (layernorm1 b);
     layernorm2 := layer_norm_of (layernorm2 b);
     dropout1 := {| rate := Some (rate (dropout1 b)) |};
     dropout2 := {| rate := Some (rate (dropout2 b)) |} |}.

(** The small block, and two inputs of three positions that agree at the
    first two: the third row of the second input holds a value that is not
    a number. *)
Definition block : TransformerBlock (option Q) := block_of Tiny.block.

Definition input : list (list (option Q)) := rows Tiny.input.

Definition input' : list (list (option Q)) :=
  [[Some 1; Some 2; Some 0]; [Some 0; Some 1; Some 3]; [None; Some 2; Some 1]]%Q.


End NaN.

(** ** Autoregressive sampler: the [TextGenerator] callback *)

(** *** Python lists and the store *)

Definition len {A} (l : list A) : Z := Z.of_nat (length l).

(** [l[i]]: a negative index counts from the end. *)
Definition py_index {A} (l : list A) (i : Z) : result A :=
  let j := if bool_decide (i < 0) then i + len l else i in
  if bool_decide (0 ≤ j) then from_option IndexError (l !! Z.to_nat j)
  else Raise IndexError.

(** [l[:stop]]: a negative [stop] counts from the end. *)
Definition py_slice_to {A} (l : list A) (stop : Z) : list A :=
  let stop := if bool_decide (stop < 0) then Z.max 0 (stop + len l) else stop in
  take (Z.to_nat stop) l.

(** [l * n]: [n] copies of [l], none when [n <= 0]. *)
Definition py_repeat {A} (l : list A) (n : Z) : list A :=
  concat (replicate (Z.to_nat n) l).

(** [a % b] on integers; the sign of the result follows [b]. *)
Definition py_mod (a b : Z) : result Z :=
  if bool_decide (b = 0) then Raise ZeroDivisionError else Ok (a `mod` b).

(** [sep.join(words)]. *)
Fixpoint join (sep : string) (words : list string) : string :=
  match words with
  | [] => ""
  | [w] => w
  | w :: ws => w +:+ sep +:+ join sep ws
  end.

Definition newline : string := String (Ascii.ascii_of_nat 10) EmptyString.

(** Lists are mutable objects: a variable or a field holds a reference into
    the store.  The state of the interpreter also holds the position in the
    stream of uniform draws of [np.random] and what has been printed. *)
Definition loc := positive.

Record state := {
  heap : gmap loc (list Z);
  draws : nat;
  stdout : list string;
}.

Inductive outcome (A : Type) :=
  | Done (a : A) (st : state)     (* normal completion *)
  | Raised (e : exn) (st : state) (* an exception propagates *)
  | OutOfFuel.                    (* the loop bound of the model was hit *)
Arguments Done {A} a st.
Arguments Raised {A} e st.
Arguments OutOfFuel {A}.

Definition M (A : Type) : Type := state → outcome A.

Global Instance M_ret : MRet M := λ A a st, Done a st.
Global Instance M_bind : MBind M := λ A B f m st,
  match m st with
  | Done a st' => f a st'
  | Raised e st' => Raised e st'
  | OutOfFuel => OutOfFuel
  end.

Definition lift {A} (r : result A) : M A := λ st,
  match r with Ok a => Done a st | Raise e => Raised e st end.

(** A new list object holding [v]. *)
Definition alloc (v : list Z) : M loc := λ st,
  let l := fresh (dom (heap st)) in
  Done l {| heap := <[l := v]> (heap st); draws := draws st; stdout := stdout st |}.

(** The contents of the list at [l].  A reference always comes from
    [alloc], so the lookup cannot miss; the miss is an internal error. *)
Definition read (l : loc) : M (list Z) := λ st,
  match heap st !! l with
  | Some v => Done v st
  | None => Raised IndexError st
  end.

(** [l.append(a)]: the list object is updated in place. *)
Definition append (l : loc) (a : Z) : M unit := λ st,
  match heap st !! l with
  | Some v =>
      Done () {| heap := <[l := v ++ [a]]> (heap st);
                 draws := draws st; stdout := stdout st |}
  | None => Raised IndexError st
  end.

(** [print(s)]: the text is added to what has been printed. *)
Definition print (s : string) : M unit := λ st,
  Done () {| heap := heap st; draws := draws st; stdout := stdout st ++ [s] |}.

(** [wp m Φ Ψ st]: run from [st], the computation [m] completes within the
    loop bound, either normally with a value and a state that satisfy [Φ] or
    with an exception and a state that satisfy [Ψ]. *)
Definition wp {A} (m : M A) (Φ : A → state → Prop) (Ψ : exn → state → Prop)
    (st : state) : Prop :=
  match m st with
  | Done a st' => Φ a st'
  | Raised e st' => Ψ e st'
  | OutOfFuel => False
  end.

Module Sampler.

(** Globals of the notebook. *)
Definition vocab_size : Z := 20000.
Definition maxlen : Z := 80.

(** *** Selection of the [k] largest logits *)

(** Insertion into a list sorted by decreasing value; among equal values
    the entry inserted last (the one with the lower index) comes first. *)
Fixpoint insert_desc (p : Q * Z) (l : list (Q * Z)) : list (Q * Z) :=
  match l with
  | [] => [p]
  | q :: l' =>
      if Qle_bool q.1 p.1 then p :: q :: l' else q :: insert_desc p l'
  end.

Definition sort_desc (l : list (Q * Z)) : list (Q * Z) :=
  foldr insert_desc [] l.

(** The order the sorted list is in: the value does not increase. *)
Definition desc (a b : Q * Z) : Prop := (b.1 <= a.1)%Q.

(** [ops.top_k(logits, k, sorted=True)]: the [k] largest entries in
    decreasing order and their indices; [k] must lie between [0] and the
    number of entries. *)
Definition top_k (logits : list Q) (k : Z) : result (list Q * list Z) :=
  if bool_decide (0 ≤ k ≤ len logits) then
    let top := take (Z.to_nat k) (sort_desc (zip logits (arange (length logits)))) in
    Ok (top.*1, top.*2)
  else Raise InvalidArgumentError.

Definition Qsum (l : list Q) : Q := foldr Qplus 0%Q l.

(** Running sums [p0, p0 + p1, ...]. *)
Fixpoint cumsum_from (acc : Q) (p : list Q) : list Q :=
  match p with
  | [] => []
  | a :: p' => (acc + a)%Q :: cumsum_from (acc + a)%Q p'
  end.

Definition cumsum (p : list Q) : list Q := cumsum_from 0%Q p.

(** [cdf.searchsorted(u, side="right")] on an increasing array: the number
    of leading entries that are at most [u]. *)
Fixpoint searchsorted_right (cdf : list Q) (u : Q) : nat :=
  match cdf with
  | [] => 0
  | c :: cdf' => if Qle_bool c u then S (searchsorted_right cdf' u) else 0
  end.

Section Sampler.

(** The trained model [self.model]: [predict x] is [y[0]] for
    [y, _ = self.model.predict(np.array([x]))], one row of logits per
    position of the window. *)
Variable predict : list Z → list (list Q).
(** The exponential used by the softmax. *)
Variable exp : Q → Q.
(** The stream of draws of [np.random.random_sample()]. *)
Variable uniform : nat → Q.

Definition softmax (l : list Q) : list Q :=
  let e := exp <$> l in
  let total := Qsum e in
  (λ a, a / total)%Q <$> e.

Definition random_sample : M Q := λ st,
  Done (uniform (draws st))
       {| heap := heap st; draws := S (draws st); stdout := stdout st |}.

(** [np.random.choice(a, p=p)]: the arguments are validated ([a] not empty,
    [p] of the same size, non-negative and summing to one; on exact
    rationals the last test is an equality, numpy allows for rounding), the
    cumulative distribution is normalised by its last entry, and the entry
    of [a] the uniform draw falls on is returned. *)
Definition choice (a : list Z) (p : list Q) : M Z :=
  if bool_decide (a = []) then lift (Raise ValueError)
  else if bool_decide (length p ≠ length a) then lift (Raise ValueError)
  else if existsb (λ x, negb (Qle_bool 0 x)) p then lift (Raise ValueError)
  else if negb (Qeq_bool (Qsum p) 1) then lift (Raise ValueError)
  else
    let cdf := cumsum p in
    let cdf := (λ c, c / default 1%Q (last cdf))%Q <$> cdf in
    u ← random_sample;
    let idx := searchsorted_right cdf u in
    lift (py_index a (Z.of_nat idx)).

Record TextGenerator := {
  max_tokens : Z;
  start_tokens : loc;
  index_to_word : list string;
  print_every : Z;
  k : Z;
}.

(** [TextGenerator.__init__]: the arguments are stored as they are; the
    prompt is stored by reference. *)
Definition init (max_tokens : Z) (start_tokens : loc)
    (index_to_word : list string) (top_k : Z) (print_every : Z)
  : M TextGenerator :=
  mret {| max_tokens := max_tokens;
          start_tokens := start_tokens;
          index_to_word := index_to_word;
          print_every := print_every;
          k := top_k |}.

(** [sample_from]: top-k, softmax over the [k] selected logits, weighted
    choice among the [k] selected indices.  The casts to [int32] and
    [float32] do not change exact values. *)
Definition sample_from (self : TextGenerator) (logits : list Q) : M Z :=
  '(logits, indices) ← lift (top_k logits (k self));
  let preds := softmax logits in
  choice indices preds.

Definition detokenize (self : TextGenerator) (number : Z) : result string :=
  py_index (index_to_word self) number.

(** The window handed to the model and the row to sample from, as computed
    at the top of the loop body from the current contents of
    [start_tokens]. *)
Definition model_input (start_tokens : list Z) : list Z * Z :=
  let pad_len := maxlen - len start_tokens in
  let sample_index := len start_tokens - 1 in
  if bool_decide (pad_len < 0) then
    (py_slice_to start_tokens maxlen, maxlen - 1)
  else if bool_decide (pad_len > 0) then
    (start_tokens ++ py_repeat [0] pad_len, sample_index)
  else
    (start_tokens, sample_index).

(** The f-string [f"generated text:\n{txt}\n"]. *)
Definition generated_text (txt : string) : string :=
  "generated text:" +:+ newline +:+ txt +:+ newline.

(** The [while num_tokens_generated <= self.max_tokens] loop.  [fuel] bounds
    the number of tests of the loop condition. *)
Fixpoint generate (fuel : nat) (self : TextGenerator)
    (start_tokens tokens_generated : loc) (num_tokens_generated : Z) : M unit :=
  match fuel with
  | O => λ _, OutOfFuel
  | S fuel =>
      if bool_decide (num_tokens_generated ≤ max_tokens self) then
        tokens ← read start_tokens;
        let '(x, sample_index) := model_input tokens in
        let y := predict x in
        row ← lift (py_index y sample_index);
        sample_token ← sample_from self row;
        append tokens_generated sample_token;;
        append start_tokens sample_token;;
        generated ← read tokens_generated;
        generate fuel self start_tokens tokens_generated (len generated)
      else mret ()
  end.

(** [start_tokens = [_ for _ in self.start_tokens]]: a new list with the
    elements of the stored prompt. *)
Definition working_copy (self : TextGenerator) : M loc :=
  prompt ← read (start_tokens self);
  alloc prompt.

Definition on_epoch_end (fuel : nat) (self : TextGenerator) (epoch : Z) : M unit :=
  start_tokens ← working_copy self;
  r ← lift (py_mod (epoch + 1) (print_every self));
  if bool_decide (r ≠ 0) then mret ()
  else
    tokens_generated ← alloc [];
    generate fuel self start_tokens tokens_generated 0;;
    prompt ← read (Sampler.start_tokens self);
    generated ← read tokens_generated;
    words ← lift (mapM (detokenize self) (prompt ++ generated));
    let txt := join " " words in
    print (generated_text txt).

(** The training loop calls the callback at the end of every epoch. *)
Fixpoint on_epochs (fuel : nat) (self : TextGenerator) (epochs : list Z) : M unit :=
  match epochs with
  | [] => mret ()
  | epoch :: epochs =>
      on_epoch_end fuel self epoch;; on_epochs fuel self epochs
  end.

End Sampler.

(** [grown sl gl st tokens generated new st']: from [st] to [st'] the tokens
    [new] were appended to the working sequence at [sl] and to the generated
    tokens at [gl], and nothing else in the store, nor the output, changed. *)
Definition grown (sl gl : loc) (st : state) (tokens generated new : list Z)
    (st' : state) : Prop :=
  heap st' !! sl = Some (tokens ++ new)
  ∧ heap st' !! gl = Some (generated ++ new)
  ∧ (∀ l, l ≠ sl → l ≠ gl → heap st' !! l = heap st !! l)
  ∧ stdout st' = stdout st.

End Sampler.

(** Every list that was in the store before is unchanged. *)
Definition untouched (st st' : state) : Prop :=
  ∀ l, is_Some (heap st !! l) → heap st' !! l = heap st !! l.

(** What the callback printed: nothing when the epoch is skipped, otherwise
    one text made of the prompt followed by [new]. *)
Definition printed (self : Sampler.TextGenerator) (epoch : Z) (prompt : list Z)
    (st st' : state) : Prop :=
  ((epoch + 1) `mod` Sampler.print_every self ≠ 0 ∧ stdout st' = stdout st)
  ∨ ((epoch + 1) `mod` Sampler.print_every self = 0 ∧
     ∃ new words,
       len new = Z.max 0 (Sampler.max_tokens self + 1)
       ∧ mapM (Sampler.detokenize self) (prompt ++ new) = Ok words
       ∧ stdout st' = stdout st ++ [Sampler.generated_text (join " " words)]).


(** ** A small sampler configuration

    A sixteen-word vocabulary and a stand-in for the trained model whose
    logits at a position depend on the token at that position only. *)

Module Toy.
Import Sampler.

Definition vocab : list string :=
  [""; "[UNK]"; "the"; "."; ","; "this"; "a"; "and";
   "of"; "is"; "to"; "it"; "movie"; "good"; "bad"; "film"].

Definition predict (x : list Z) : list (list Q) :=
  (λ t : Z, (λ j : Z, inject_Z ((t * 7 + j * 5 + 11) `mod` 16)) <$> arange 16) <$> x.

Definition uniform (n : nat) : Q := Z.of_nat (n `mod` 5) # 5.

(** The prompt [[5, 12, 9]] ("this movie is") is the list object at
    location [1]; the callback is constructed with a reference to it. *)
Definition prompt : loc := 1%positive.

Definition initial : state :=
  {| heap := {[ prompt := [5; 12; 9] ]}; draws := 0; stdout := [] |}.

Definition generator (budget top_k : Z) : TextGenerator :=
  {| max_tokens := budget; start_tokens := prompt; index_to_word := vocab;
     print_every := 1; k := top_k |}.

(** One call of the callback at the end of epoch [0]. *)
Definition run (fuel : nat) (budget top_k : Z) : outcome unit :=
  on_epoch_end predict Q_exp uniform fuel (generator budget top_k) 0 initial.

End Toy.

(** ** Shapes of the block's tensors *)

(** A batch of [B] examples of [n] rows of [D] scalars. *)
Definition has_shape {A} (B n D : nat) (X : list (list (list A))) : Prop :=
  length X = B
  ∧ Forall (λ x, length x = n ∧ Forall (λ row, length row = D) x) X.

(** The weights of a block created by
    [TransformerBlock(embed_dim, num_heads, ff_dim)] that decide the width of
    its output: all of them have [embed_dim = D] entries. *)
Definition block_shaped {F} (D : nat) (block : Block.TransformerBlock F) : Prop :=
  Forall (λ h, length (Block.output_kernel h) = D) (Block.heads (Block.att block))
  ∧ length (Block.output_bias (Block.att block)) = D
  ∧ length (Block.gamma (Block.layernorm1 block)) = D
  ∧ length (Block.beta (Block.layernorm1 block)) = D
  ∧ length (Block.kernel (Block.ffn_output block)) = D
  ∧ length (Block.bias (Block.ffn_output block)) = D
  ∧ length (Block.gamma (Block.layernorm2 block)) = D
  ∧ length (Block.beta (Block.layernorm2 block)) = D.

(** ** What the embedding computes on valid ids *)

(** The embedding of a sequence of valid ids, row by row. *)
Definition embedded {F} `{Scalar F} (self : Embedding.TokenAndPositionEmbedding F) (x : list Z)
  : list (list F) :=
  zip_with (zip_with fadd)
    ((λ id, default [] (Embedding.token_emb self !! Z.to_nat id)) <$> x)
    ((λ id, default [] (Embedding.pos_emb self !! Z.to_nat id)) <$> arange (length x)).

Definition valid_ids {F} (self : Embedding.TokenAndPositionEmbedding F) (x : list Z) : Prop :=
  Forall (λ t, 0 ≤ t < Z.of_nat (length (Embedding.token_emb self))) x.

(** ** The model built by [create_model] *)

Module Model.
Section Model.
Context {F : Type} `{Scalar F}.

(** The input length [create_model] declares and the three layers it wires
    together: the embedding, one transformer block and the dense layer that
    produces the logits. *)
Record MiniatureGPT := {
  maxlen : nat;                       (* layers.Input(shape=(maxlen,)) *)
  embedding_layer : Embedding.TokenAndPositionEmbedding F;
  transformer_block : Block.TransformerBlock F;
  lm_head : Block.Dense F;            (* layers.Dense(vocab_size) *)
}.

(** The model on a batch of token sequences:
    [x = embedding_layer(inputs); x = transformer_block(x);
     outputs = Dense(vocab_size)(x)], with the two outputs [[outputs, x]].
    The declared input length is not enforced when the model is called: a
    shorter window is embedded and processed like any other. *)
Definition call (self : MiniatureGPT) (training : bool)
    (rng : nat → nat → nat → nat → bool) (inputs : list (list Z))
  : result (list (list (list F)) * list (list (list F))) :=
  x ← Embedding.call_batch (embedding_layer self) inputs;
  let x := Block.call (transformer_block self) training rng x in
  let outputs := Block.rowwise (Block.dense (lm_head self) id) x in
  Ok (outputs, x).

(** [y, _ = self.model.predict(np.array([x]))] followed by [y[0]]: the
    logits of a batch of one window, in inference mode. *)
Definition predict (self : MiniatureGPT) (x : list Z) : result (list (list F)) :=
  '(y, _) ← call self false (λ _ _ _ _, true) [x];
  from_option IndexError (y !! 0%nat).

(** The weights have the shapes [create_model] asks for: one position row
    per input position, [D] features per position, [V] logits. *)
Definition shaped (D V : nat) (self : MiniatureGPT) : Prop :=
  length (Embedding.pos_emb (embedding_layer self)) = maxlen self
  ∧ Forall (λ row, length row = D) (Embedding.token_emb (embedding_layer self))
  ∧ Forall (λ row, length row = D) (Embedding.pos_emb (embedding_layer self))
  ∧ block_shaped D (transformer_block self)
  ∧ length (Block.kernel (lm_head self)) = V
  ∧ length (Block.bias (lm_head self)) = V.

End Model.

Global Arguments MiniatureGPT F : clear implicits.

End Model.

(** A small model on rational scalars: the embedding and the block of
    [Tiny] with a head of four logits, and the same with a position table
    of 80 rows. *)
Module TinyModel.
Local Open Scope Q_scope.

Definition head : Block.Dense Q :=
  {| Block.kernel := [[1; 0; 0]; [0; 1; 0]; [0; 0; 1]; [1; 1; 1]];
     Block.bias := [0; 0; 0; 1 # 2] |}.

Definition gpt : Model.MiniatureGPT Q :=
  {| Model.maxlen := 3;
     Model.embedding_layer := Tiny.embedding;
     Model.transformer_block := Tiny.block;
     Model.lm_head := head |}.

Definition gpt80 : Model.MiniatureGPT Q :=
  {| Model.maxlen := 80;
     Model.embedding_layer :=
       {| Embedding.token_emb := Embedding.token_emb Tiny.embedding;
          Embedding.pos_emb := (λ p : Z, [p # 10; 0; 1 # 10]) <$> arange 80 |};
     Model.transformer_block := Tiny.block;
     Model.lm_head := head |}.

End TinyModel.

(** ** Data preparation: standardisation, inputs and labels, prompt tokens *)

Module Data.

(** *** [custom_standardization] *)

(** Strings are sequences of bytes, as tensors of strings are. *)
Definition chars (s : string) : list Ascii.ascii :=
  String.list_ascii_of_string s.

Definition is_upper (c : Ascii.ascii) : bool :=
  let n := Ascii.nat_of_ascii c in (65 <=? n)%nat && (n <=? 90)%nat.

Definition to_lower (c : Ascii.ascii) : Ascii.ascii :=
  if is_upper c then Ascii.ascii_of_nat (Ascii.nat_of_ascii c + 32) else c.

(** [tf_strings.lower]: the ASCII capitals are mapped to small letters. *)
Fixpoint lower (s : string) : string :=
  match s with
  | EmptyString => EmptyString
  | String c s' => String (to_lower c) (lower s')
  end.

(** [string.punctuation]: the 32 printable ASCII characters other than
    letters, digits and the space, in the order of their codes (33 to 47,
    58 to 64, 91 to 96 and 123 to 126). *)
Definition punctuation : string :=
  String.string_of_list_ascii
    (Ascii.ascii_of_nat <$> seq 33 15 ++ seq 58 7 ++ seq 91 6 ++ seq 123 4).

Definition is_punctuation (c : Ascii.ascii) : bool :=
  bool_decide (c ∈ chars punctuation).

Definition backslash : Ascii.ascii := Ascii.ascii_of_nat 92.

(** The pattern of the second replacement: the punctuation put between the
    brackets of a character class, in a group. *)
Definition punctuation_pattern : string := "([" +:+ punctuation +:+ "])".

(** The text of a character class as the regular expression library reads
    it: a backslash makes the punctuation character after it a literal one,
    an unescaped hyphen stands for a range and an unescaped closing bracket
    ends the class. *)
Inductive class_token :=
  | Lit (c : Ascii.ascii)
  | Hyphen
  | Close.

Fixpoint class_tokens (s : list Ascii.ascii) : list class_token :=
  match s with
  | [] => []
  | c :: s' =>
      if (Ascii.nat_of_ascii c =? 92)%nat then
        match s' with
        | [] => []
        | e :: s'' => Lit e :: class_tokens s''
        end
      else if (Ascii.nat_of_ascii c =? 45)%nat then Hyphen :: class_tokens s'
      else if (Ascii.nat_of_ascii c =? 93)%nat then Close :: class_tokens s'
      else Lit c :: class_tokens s'
  end.

Definition token_code (t : class_token) : nat :=
  match t with
  | Lit c => Ascii.nat_of_ascii c
  | Hyphen => 45
  | Close => 93
  end.

(** The ranges of a class, read up to its closing bracket, with the tokens
    that follow the bracket: [lo-hi] is the range from [lo] to [hi], any other
    character stands for itself.  A class without closing bracket or with a
    range that runs backwards is an error. *)
Fixpoint class_ranges (ts : list class_token)
  : option (list (nat * nat) * list class_token) :=
  match ts with
  | [] => None
  | Close :: rest => Some ([], rest)
  | lo :: rest =>
      let single :=
        '(ranges, after) ← class_ranges rest;
        Some ((token_code lo, token_code lo) :: ranges, after) in
      match rest with
      | Hyphen :: Close :: _ => single
      | Hyphen :: hi :: rest' =>
          if (token_code hi <? token_code lo)%nat then None
          else
            '(ranges, after) ← class_ranges rest';
            Some ((token_code lo, token_code hi) :: ranges, after)
      | _ => single
      end
  end.

(** The class of [punctuation_pattern]: what stands between the opening
    [(] and [[] and the closing bracket that is followed by [)] alone. *)
Definition punctuation_class : option (list (nat * nat)) :=
  match chars punctuation_pattern with
  | p :: b :: body =>
      if (Ascii.nat_of_ascii p =? 40)%nat && (Ascii.nat_of_ascii b =? 91)%nat then
        match class_ranges (class_tokens body) with
        | Some (ranges, [Lit c]) =>
            if (Ascii.nat_of_ascii c =? 41)%nat then Some ranges else None
        | _ => None
        end
      else None
  | _ => None
  end.

(** The characters the pattern matches. *)
Definition in_class (c : Ascii.ascii) : bool :=
  match punctuation_class with
  | Some ranges =>
      existsb (λ r : nat * nat,
                 (r.1 <=? Ascii.nat_of_ascii c)%nat && (Ascii.nat_of_ascii c <=? r.2)%nat)
              ranges
  | None => false
  end.

(** [tf_strings.regex_replace(s, pattern, rewrite)] for a pattern without
    metacharacters: every occurrence of the non-empty text [pattern], found
    from left to right without overlap, is replaced by [rewrite].  [skip]
    counts the characters of a match that remain to be dropped. *)
Fixpoint replace_from (skip : nat) (pattern rewrite s : string) : string :=
  match s with
  | EmptyString => EmptyString
  | String c s' =>
      match skip with
      | S skip' => replace_from skip' pattern rewrite s'
      | O =>
          if String.prefix pattern s
          then rewrite +:+ replace_from (String.length pattern - 1) pattern rewrite s'
          else String c (replace_from 0 pattern rewrite s')
      end
  end.

Definition regex_replace_text (s pattern rewrite : string) : string :=
  replace_from 0 pattern rewrite s.

Definition space : Ascii.ascii := Ascii.ascii_of_nat 32.

(** [tf_strings.regex_replace] with [punctuation_pattern] as pattern and a
    space followed by the match as rewrite: a space is put in front of every
    character the pattern matches. *)
Fixpoint regex_replace_punctuation (s : string) : string :=
  match s with
  | EmptyString => EmptyString
  | String c s' =>
      if in_class c
      then String space (String c (regex_replace_punctuation s'))
      else String c (regex_replace_punctuation s')
  end.

Definition custom_standardization (input_string : string) : string :=
  let lowercased := lower input_string in
  let stripped_html := regex_replace_text lowercased "<br />" " " in
  regex_replace_punctuation stripped_html.

(** *** [prepare_lm_inputs_labels] *)

(** [l[start:]]: a negative [start] counts from the end. *)
Definition py_slice_from {A} (l : list A) (start : Z) : list A :=
  let start := if bool_decide (start < 0) then Z.max 0 (start + len l) else start in
  drop (Z.to_nat start) l.

Section Labels.

(** The vectorisation layer, adapted to the corpus elsewhere: one row of
    token ids per text. *)
Variable vectorize_layer : string → list Z.

(** [x = tokenized_sentences[:, :-1]] and [y = tokenized_sentences[:, 1:]]
    on a batch of texts. *)
Definition prepare_lm_inputs_labels (text : list string)
  : list (list Z) * list (list Z) :=
  let tokenized_sentences := vectorize_layer <$> text in
  let x := (λ row, py_slice_to row (-1)) <$> tokenized_sentences in
  let y := (λ row, py_slice_from row 1) <$> tokenized_sentences in
  (x, y).

End Labels.

(** *** The prompt: [word_to_index] and [start_tokens] *)

(** [for index, word in enumerate(vocab): word_to_index[word] = index]. *)
Definition build_word_to_index (vocab : list string) : gmap string Z :=
  foldl (λ d iw, <[iw.2 := iw.1]> d) ∅ (zip (arange (length vocab)) vocab).

(** [d.get(key, default)]. *)
Definition dict_get (d : gmap string Z) (key : string) (default : Z) : Z :=
  match d !! key with Some v => v | None => default end.

(** [[word_to_index.get(_, 1) for _ in words]], where [words] is the prompt
    split at white space. *)
Definition start_tokens (word_to_index : gmap string Z) (words : list string)
  : list Z :=
  (λ w, dict_get word_to_index w 1) <$> words.

End Data.
(** * Properties *)

(** ** Facts about the tensor helpers *)

Lemma length_arange n : length (arange n) = n.
Proof. unfold arange. by rewrite length_fmap, length_seq. Qed.

Lemma lookup_arange n (i : nat) :
  (i < n)%nat → arange n !! i = Some (Z.of_nat i).
Proof.
  intros Hi. unfold arange.
  rewrite list_lookup_fmap, lookup_seq_lt by done. done.
Qed.

Lemma lookup_arange_ge n (i : nat) : (n ≤ i)%nat → arange n !! i = None.
Proof. intros Hi. apply lookup_ge_None_2. by rewrite length_arange. Qed.

Lemma lookup_tile0_singleton {A} (reps b : nat) (t : A) :
  (b < reps)%nat → tile0 reps [t] !! b = Some t.
Proof.
  unfold tile0. revert b. induction reps as [|r IH]; intros b Hb; [lia|].
  destruct b as [|b]; simpl; [done|]. apply IH. lia.
Qed.

Lemma length_tile0_singleton {A} (reps : nat) (t : A) :
  length (tile0 reps [t]) = reps.
Proof. unfold tile0. induction reps; simpl; auto. Qed.

(** ** Facts about fallible traversals *)

Lemma mapM_result_cons {A B} (f : A → result B) (a : A) (l : list A) :
  mapM f (a :: l) = b ← f a; k ← mapM f l; Ok (b :: k).
Proof. done. Qed.

(** A traversal whose function succeeds on every element succeeds, and its
    output is the list of the individual results. *)
Lemma mapM_result_Ok {A B} (f : A → result B) (g : A → B) (l : list A) :
  Forall (λ a, f a = Ok (g a)) l → mapM f l = Ok (g <$> l).
Proof.
  induction 1 as [|a l Ha _ IH]; [done|].
  rewrite mapM_result_cons, Ha. simpl. rewrite IH. done.
Qed.

Lemma mapM_result_Ok_inv {A B} (f : A → result B) (l : list A) (out : list B) :
  mapM f l = Ok out →
  length out = length l ∧ ∀ i a, l !! i = Some a → ∃ b, f a = Ok b ∧ out !! i = Some b.
Proof.
  revert out. induction l as [|a l IH]; intros out Hout.
  - injection Hout as <-. split; [done|]. intros i a Hi. by destruct i.
  - rewrite mapM_result_cons in Hout.
    destruct (f a) as [b|e] eqn:Hfa; [|done]. simpl in Hout.
    destruct (mapM f l) as [k|e] eqn:Hk; [|done]. simpl in Hout.
    injection Hout as <-. destruct (IH k eq_refl) as [Hlen Hrows].
    split; [simpl; by rewrite Hlen|].
    intros [|i] a' Hi; simpl in *.
    + injection Hi as <-. by exists b.
    + by apply Hrows.
Qed.

(** ** The causal mask is lower-triangular from the lower right corner *)

Section MaskFacts.
Import Mask.

Lemma lookup_lower_right (n_dest n_src i j : nat) :
  (i < n_dest)%nat → (j < n_src)%nat →
  (row ← lower_right n_dest n_src !! i; row !! j)
  = Some (Z.geb (Z.of_nat i) (Z.of_nat j - Z.of_nat n_src + Z.of_nat n_dest)).
Proof.
  intros Hi Hj. unfold lower_right.
  rewrite list_lookup_fmap, lookup_arange by done. simpl.
  rewrite list_lookup_fmap, lookup_arange by done. done.
Qed.

Lemma shape_lower_right (n_dest n_src : nat) :
  length (lower_right n_dest n_src) = n_dest
  ∧ Forall (λ row, length row = n_src) (lower_right n_dest n_src).
Proof.
  unfold lower_right. split.
  - by rewrite length_fmap, length_arange.
  - apply Forall_fmap, Forall_forall. intros i _. simpl.
    by rewrite length_fmap, length_arange.
Qed.

Lemma wrap32_small z : - 2 ^ 31 ≤ z < 2 ^ 31 → wrap32 z = z.
Proof. intros Hz. unfold wrap32. rewrite Z.mod_small; lia. Qed.

(** On tensors of 32-bit integers the comparison never wraps around: every
    intermediate value stays within the signed range as long as the two
    counts do. *)
Lemma lower_right_int32_agrees (n_dest n_src : nat) :
  Z.of_nat n_dest < 2 ^ 31 → Z.of_nat n_src < 2 ^ 31 →
  lower_right_int32 n_dest n_src = lower_right n_dest n_src.
Proof.
  intros Hd Hs. unfold lower_right_int32, lower_right.
  apply list_fmap_ext. intros _ i _.
  apply list_fmap_ext. intros k j Hj.
  assert (k < n_src)%nat as Hk.
  { apply lookup_lt_Some in Hj. by rewrite length_arange in Hj. }
  rewrite lookup_arange in Hj by done. simplify_eq.
  rewrite (wrap32_small (_ - _)) by lia.
  rewrite wrap32_small by lia. done.
Qed.

(** C1. For every batch index [b], destination index [i < n_dest] and source
    index [j < n_src], the entry [M[b][i][j]] of the mask built by
    [causal_attention_mask] exists and is true exactly when
    [i >= j - n_src + n_dest]; when the two counts are equal it is true
    exactly when [i >= j]. *)
Theorem causal_mask_entry (batch_size n_dest n_src b i j : nat) :
  (b < batch_size)%nat → (i < n_dest)%nat → (j < n_src)%nat →
  ∃ m : bool,
    entry (causal_attention_mask batch_size n_dest n_src) b i j = Some m
    ∧ (m = true ↔ Z.of_nat i >= Z.of_nat j - Z.of_nat n_src + Z.of_nat n_dest)
    ∧ (n_dest = n_src → (m = true ↔ (i >= j)%nat)).
Proof.
  intros Hb Hi Hj.
  exists (Z.geb (Z.of_nat i) (Z.of_nat j - Z.of_nat n_src + Z.of_nat n_dest)).
  split; [|split].
  - unfold entry, causal_attention_mask.
    rewrite lookup_tile0_singleton by done. simpl.
    by apply lookup_lower_right.
  - rewrite Z.geb_leb, Z.leb_le. lia.
  - intros ->. rewrite Z.geb_leb, Z.leb_le. lia.
Qed.

Lemma causal_mask_entry_witness :
  ∃ m : bool,
    entry (causal_attention_mask 2 3 5) 1 1 3 = Some m
    ∧ (m = true ↔ 1 >= 3 - 5 + 3)
    ∧ (3%nat = 5%nat → (m = true ↔ (1 >= 3)%nat)).
Proof. apply (causal_mask_entry 2 3 5 1 1 3); lia. Defined.

End MaskFacts.

(** ** Token and position embedding: each row is token row plus position row *)

Section EmbeddingFacts.
Import Embedding.
Context {F : Type} `{Scalar F}.

(** Looking up ids that all lie inside the table succeeds and returns the
    rows in order. *)
Lemma embedding_Ok (table : list (list F)) (ids : list Z) :
  Forall (λ id, 0 ≤ id < Z.of_nat (length table)) ids →
  embedding table ids = Ok ((λ id, default [] (table !! Z.to_nat id)) <$> ids).
Proof.
  intros Hids. unfold embedding. apply mapM_result_Ok.
  eapply Forall_impl; [exact Hids|]. intros id Hid. simpl in *.
  rewrite (bool_decide_false (id < 0)) by lia.
  rewrite bool_decide_true by lia.
  destruct (lookup_lt_is_Some_2 table (Z.to_nat id)) as [row Hrow]; [lia|].
  by rewrite Hrow.
Qed.

(** An id that is outside the table, also when counted from its end,
    makes the lookup fail: it is not clamped. *)
Lemma embedding_out_of_range (table : list (list F)) (ids : list Z) (id : Z) :
  id ∈ ids →
  ¬ (- Z.of_nat (length table) ≤ id < Z.of_nat (length table)) →
  ∀ out, embedding table ids ≠ Ok out.
Proof.
  intros Hin Hid out Hout. unfold embedding in Hout.
  apply mapM_result_Ok_inv in Hout as [_ Hrows].
  apply list_elem_of_lookup in Hin as [i Hi].
  destruct (Hrows i id Hi) as (row & Hrow & _). simpl in Hrow.
  destruct (bool_decide (id < 0)) eqn:Hneg.
  - apply bool_decide_eq_true in Hneg.
    case_bool_decide; [|done].
    destruct (table !! Z.to_nat _) eqn:Hlk; [|done].
    apply lookup_lt_Some in Hlk. lia.
  - apply bool_decide_eq_false in Hneg.
    case_bool_decide; [|done].
    destruct (table !! Z.to_nat id) eqn:Hlk; [|done].
    apply lookup_lt_Some in Hlk. lia.
Qed.

(** C6. For a sequence [x] of [n] valid token ids, with [n] at most the
    number of rows of the position table, [call] succeeds with [n] output rows,
    and the row at every position [p < n] is the elementwise sum of
    [token_emb[x[p]]] and [pos_emb[p]]: the position index is the offset [p]
    inside the sequence handed to this very invocation. *)
Theorem embedding_row_is_token_plus_position
    (self : TokenAndPositionEmbedding F) (x : list Z) (n : nat) :
  length x = n →
  (n ≤ length (pos_emb self))%nat →
  Forall (λ t, 0 ≤ t < Z.of_nat (length (token_emb self))) x →
  ∃ out, call self x = Ok out ∧ length out = n ∧
    ∀ p, (p < n)%nat →
      ∃ t token_row position_row,
        x !! p = Some t
        ∧ token_emb self !! Z.to_nat t = Some token_row
        ∧ pos_emb self !! p = Some position_row
        ∧ out !! p = Some (zip_with fadd token_row position_row).
Proof.
  intros Hn HL Hx. unfold call. cbv zeta.
  rewrite (embedding_Ok (pos_emb self)); last first.
  { apply Forall_forall. intros id Hid.
    apply list_elem_of_lookup in Hid as [i Hi].
    assert (i < length x)%nat.
    { pose proof (lookup_lt_Some _ _ _ Hi) as Hlt.
      by rewrite length_arange in Hlt. }
    rewrite lookup_arange in Hi by done. simplify_eq. lia. }
  simpl. rewrite embedding_Ok by done. simpl.
  eexists. split; [done|]. split.
  - rewrite length_zip_with, !length_fmap, length_arange. lia.
  - intros p Hp.
    destruct (lookup_lt_is_Some_2 x p) as [t Ht]; [lia|].
    assert (0 ≤ t < Z.of_nat (length (token_emb self))) as Hrange
      by (eapply Forall_lookup_1 in Hx; eauto).
    destruct (lookup_lt_is_Some_2 (token_emb self) (Z.to_nat t)) as [tr Htr]; [lia|].
    destruct (lookup_lt_is_Some_2 (pos_emb self) p) as [pr Hpr]; [lia|].
    exists t, tr, pr. repeat split; try done.
    rewrite lookup_zip_with, !list_lookup_fmap, Ht, lookup_arange by lia.
    simpl. rewrite Htr, Nat2Z.id, Hpr. done.
Qed.

End EmbeddingFacts.

Lemma embedding_row_is_token_plus_position_witness :
  ∃ out, Embedding.call Tiny.embedding [3; 1] = Ok out ∧ length out = 2%nat ∧
    ∀ p, (p < 2)%nat →
      ∃ t token_row position_row,
        [3; 1] !! p = Some t
        ∧ Embedding.token_emb Tiny.embedding !! Z.to_nat t = Some token_row
        ∧ Embedding.pos_emb Tiny.embedding !! p = Some position_row
        ∧ out !! p = Some (zip_with fadd token_row position_row).
Proof.
  apply (embedding_row_is_token_plus_position Tiny.embedding [3; 1] 2).
  - reflexivity.
  - simpl. lia.
  - repeat constructor; simpl; lia.
Defined.

(** The same two tokens in a window that starts one position later are
    again given the position rows [0] and [1]. *)
Example embedding_restarts_at_zero :
  Embedding.call Tiny.embedding [2; 3; 1]
  = Ok [[1 # 10; 2; 1]; [3; 11 # 10; 0]; [1; 0; 3 # 5]]%Q
  ∧ Embedding.call Tiny.embedding [3; 1]
    = Ok [[31 # 10; 1; 0]; [1; 1 # 10; 1 # 2]]%Q.
Proof. split; vm_compute; reflexivity. Qed.
(** ** Transformer decoder block: determinism and causality *)

Section BlockFacts.
Import Mask Block.
Context {F : Type} `{Scalar F}.

(** Row [i] of the square mask allows exactly the positions [j <= i]. *)
Lemma lookup_lower_right_square (n i : nat) :
  (i < n)%nat →
  lower_right n n !! i = Some ((λ j : nat, bool_decide (j ≤ i)%nat) <$> seq 0 n).
Proof.
  intros Hi. unfold lower_right.
  rewrite list_lookup_fmap, lookup_arange by done. simpl. f_equal.
  unfold arange. rewrite <- list_fmap_compose.
  apply list_fmap_ext. intros _ j _. simpl.
  rewrite Z.geb_leb.
  destruct (bool_decide_reflect (j ≤ i)%nat); [apply Z.leb_le|apply Z.leb_gt]; lia.
Qed.

Lemma length_dense (l : Dense F) (act : F → F) (x : list F) :
  length (dense l act x) = (length (kernel l) `min` length (bias l))%nat.
Proof.
  unfold dense, vadd. by rewrite length_fmap, length_zip_with, length_fmap.
Qed.

(** A row-wise sum of matrices at row [i] only depends on the summands' rows
    [i]. *)
Lemma lookup_foldr_zip_with_ext {A} (f : A → A → A)
    (ms ms' : list (list A)) (init init' : list A) (i : nat) :
  Forall2 (λ m m', m !! i = m' !! i) ms ms' →
  init !! i = init' !! i →
  foldr (zip_with f) init ms !! i = foldr (zip_with f) init' ms' !! i.
Proof.
  intros Hms Hinit. induction Hms as [|m m' ms ms' Hm _ IH]; simpl; [done|].
  by rewrite !lookup_zip_with, Hm, IH.
Qed.

Lemma length_foldr_zip_with {A} (f : A → A → A)
    (ms : list (list A)) (init : list A) (n : nat) :
  Forall (λ m, length m = n) ms → length init = n →
  length (foldr (zip_with f) init ms) = n.
Proof.
  intros Hms Hinit. induction Hms as [|m ms Hm _ IH]; simpl; [done|].
  rewrite length_zip_with. lia.
Qed.

Section Causality.
Hypothesis fmul_0_l : ∀ a : F, fmul f0 a = f0.
Variables (x x' : list (list F)) (n i : nat).
Hypothesis Hx : length x = n.
Hypothesis Hx' : length x' = n.
Hypothesis Hi : (i < n)%nat.
Hypothesis Hagree : ∀ j, (j ≤ i)%nat → x !! j = x' !! j.

Let allowed : list bool := (λ j : nat, bool_decide (j ≤ i)%nat) <$> seq 0 n.

Lemma lookup_allowed (j : nat) :
  (j < n)%nat → allowed !! j = Some (bool_decide (j ≤ i)%nat).
Proof.
  intros Hj. unfold allowed. by rewrite list_lookup_fmap, lookup_seq_lt.
Qed.

Lemma lookup_outside (j : nat) : (n ≤ j)%nat → x !! j = None ∧ x' !! j = None.
Proof. intros Hj. split; apply lookup_ge_None_2; lia. Qed.

(** The attention weights of query row [i] are the same for both inputs. *)
Lemma masked_softmax_agree (d : Dense F) (q : list F) :
  masked_softmax (dot q <$> (dense d id <$> x)) allowed
  = masked_softmax (dot q <$> (dense d id <$> x')) allowed.
Proof.
  unfold masked_softmax.
  assert (zip_with (λ s (m : bool), if m then fexp s else f0)
            (dot q <$> (dense d id <$> x)) allowed
          = zip_with (λ s (m : bool), if m then fexp s else f0)
              (dot q <$> (dense d id <$> x')) allowed) as ->; [|done].
  apply list_eq. intros j. rewrite !lookup_zip_with, !list_lookup_fmap.
  destruct (decide (j ≤ i)%nat) as [Hj|Hj]; [by rewrite Hagree|].
  destruct (decide (j < n)%nat) as [Hn|Hn].
  - rewrite lookup_allowed, bool_decide_false by done.
    destruct (lookup_lt_is_Some_2 x j) as [? ->]; [lia|].
    destruct (lookup_lt_is_Some_2 x' j) as [? ->]; [lia|]. done.
  - destruct (lookup_outside j) as [-> ->]; [lia|]. done.
Qed.

(** A position after [i] has weight zero. *)
Lemma masked_softmax_future (scores : list F) (j : nat) (a : F) :
  (i < j)%nat → masked_softmax scores allowed !! j = Some a → a = f0.
Proof.
  intros Hj Ha. unfold masked_softmax in Ha. rewrite lookup_zip_with in Ha.
  destruct (zip_with _ scores allowed !! j) as [e|]; [|done]. simpl in Ha.
  destruct (allowed !! j) as [m|] eqn:Hm; [|done]. simpl in Ha.
  assert (j < n)%nat as Hn.
  { pose proof (lookup_lt_Some _ _ _ Hm) as Hlt. unfold allowed in Hlt.
    by rewrite length_fmap, length_seq in Hlt. }
  rewrite lookup_allowed, bool_decide_false in Hm by lia.
  injection Hm as <-. congruence.
Qed.

Lemma scaled_values_agree (d : Dense F) (w : list F) :
  (∀ j a, (i < j)%nat → w !! j = Some a → a = f0) →
  zip_with (λ a (vj : list F), fmul a <$> vj) w (dense d id <$> x)
  = zip_with (λ a (vj : list F), fmul a <$> vj) w (dense d id <$> x').
Proof.
  intros Hw. apply list_eq. intros j.
  rewrite !lookup_zip_with, !list_lookup_fmap.
  destruct (decide (j ≤ i)%nat) as [Hj|Hj]; [by rewrite Hagree|].
  destruct (w !! j) as [a|] eqn:Ha; [|done]. simpl.
  rewrite (Hw j a) by (done || lia).
  destruct (decide (j < n)%nat) as [Hn|Hn].
  - destruct (lookup_lt_is_Some_2 x j) as [r ->]; [lia|].
    destruct (lookup_lt_is_Some_2 x' j) as [r' ->]; [lia|]. simpl. f_equal.
    apply list_eq. intros c. rewrite !list_lookup_fmap.
    destruct (decide (c < length (dense d id r))%nat) as [Hc|Hc].
    + destruct (lookup_lt_is_Some_2 (dense d id r) c) as [? ->]; [done|].
      destruct (lookup_lt_is_Some_2 (dense d id r') c) as [? ->].
      { rewrite length_dense in *. done. }
      simpl. by rewrite !fmul_0_l.
    + rewrite !lookup_ge_None_2; [done| |lia].
      rewrite length_dense in *. lia.
  - destruct (lookup_outside j) as [-> ->]; [lia|]. done.
Qed.

(** Row [i] of one head's context does not see the rows after [i]. *)
Lemma attend_row_causal (l : MultiHeadAttention F) (h : AttentionHead F) :
  attend l h x x x (lower_right n n) !! i
  = attend l h x' x' x' (lower_right n n) !! i.
Proof.
  unfold attend. rewrite !lookup_zip_with, !list_lookup_fmap.
  rewrite <- Hagree by done.
  destruct (x !! i) as [xi|]; [|done]. simpl.
  rewrite lookup_lower_right_square by done. simpl. f_equal.
  fold allowed. rewrite <- masked_softmax_agree.
  rewrite scaled_values_agree; [done|].
  intros j a. apply masked_softmax_future.
Qed.

Lemma attention_row_causal (l : MultiHeadAttention F) :
  attention l x x (lower_right n n) !! i
  = attention l x' x' (lower_right n n) !! i.
Proof.
  unfold attention. apply lookup_foldr_zip_with_ext.
  - apply Forall2_fmap, Forall_Forall2_diag, Forall_forall. intros h _.
    rewrite !list_lookup_fmap. by rewrite attend_row_causal.
  - by rewrite Hx, Hx'.
Qed.

End Causality.

Lemma length_attention (l : MultiHeadAttention F) (x : list (list F)) :
  length (attention l x x (lower_right (length x) (length x))) = length x.
Proof.
  unfold attention. apply length_foldr_zip_with.
  - apply Forall_fmap, Forall_forall. intros h _. simpl.
    unfold attend. rewrite length_fmap, length_zip_with, length_fmap.
    destruct (shape_lower_right (length x) (length x)) as [-> _]. lia.
  - by rewrite length_replicate.
Qed.

Lemma length_call_example (self : TransformerBlock F) (x : list (list F)) :
  length (call_example self x) = length x.
Proof.
  unfold call_example.
  rewrite length_fmap, length_zip_with, !length_fmap, length_zip_with.
  rewrite length_attention. lia.
Qed.

(** Row [i] of the block's output on one example is a function of row [i]
    of the input and row [i] of the attention output. *)
Lemma lookup_call_example (self : TransformerBlock F) (x : list (list F)) (i : nat) :
  call_example self x !! i
  = xi ← x !! i;
    ai ← attention (att self) x x (lower_right (length x) (length x)) !! i;
    let o := layer_norm (layernorm1 self) (vadd xi ai) in
    Some (layer_norm (layernorm2 self) (vadd o (ffn self o))).
Proof.
  unfold call_example.
  rewrite list_lookup_fmap, lookup_zip_with, !list_lookup_fmap, lookup_zip_with.
  destruct (x !! i) as [xi|]; [|done]. simpl.
  destruct (attention _ _ _ _ !! i) as [ai|]; done.
Qed.

(** With both dropout layers off, the block treats every example of the
    batch on its own, whatever the random source. *)
Lemma call_lookup (self : TransformerBlock F) (training : bool)
    (rng : nat → nat → nat → nat → bool)
    (X : list (list (list F))) (n b : nat) (x : list (list F)) :
  dropout_enabled (dropout1 self) training = false →
  dropout_enabled (dropout2 self) training = false →
  Forall (λ x, length x = n) X →
  X !! b = Some x →
  call self training rng X !! b = Some (call_example self x).
Proof.
  intros H1 H2 HX Hb. unfold call, dropout. rewrite H1, H2. cbv zeta.
  assert (length (default [] (head X)) = n) as ->.
  { destruct X as [|x0 X0]; [done|]. simpl. by inversion HX. }
  assert (length x = n) as Hn by (eapply Forall_lookup_1 in HX; eauto).
  unfold rowwise, add_batch, attention_batch.
  set (A := zip_with _ (zip X X) _).
  assert (A !! b = Some (attention (att self) x x (lower_right n n))) as HA.
  { unfold A, causal_attention_mask.
    rewrite !lookup_zip_with, Hb. simpl.
    rewrite lookup_tile0_singleton by (by eapply lookup_lt_Some). done. }
  set (O := _ <$> zip_with (zip_with vadd) X A).
  assert (O !! b = Some (layer_norm (layernorm1 self)
                           <$> zip_with vadd x (attention (att self) x x (lower_right n n))))
    as HO.
  { unfold O. by rewrite list_lookup_fmap, lookup_zip_with, Hb, HA. }
  rewrite list_lookup_fmap, lookup_zip_with, list_lookup_fmap, HO. simpl.
  unfold call_example. by rewrite Hn.
Qed.

(** When both dropout layers are off (the layer is not called in training
    mode, or its rate is not positive), the random source is not consulted:
    the block's output on a batch is the same for every random source. *)
Lemma block_deterministic (self : TransformerBlock F) (training : bool)
    (rng rng' : nat → nat → nat → nat → bool) (inputs : list (list (list F))) :
  dropout_enabled (dropout1 self) training = false →
  dropout_enabled (dropout2 self) training = false →
  call self training rng inputs = call self training rng' inputs.
Proof.
  intros H1 H2. unfold call, dropout. by rewrite H1, H2.
Qed.


End BlockFacts.

(** ** The block on rational scalars *)

Lemma Q_fmul_0_l (a : Q) : fmul f0 a = f0.
Proof. destruct a as [p q]. reflexivity. Qed.

Lemma block_deterministic_witness :
  Block.call Tiny.block false Tiny.keep_all [Tiny.input]
  = Block.call Tiny.block false Tiny.drop_all [Tiny.input].
Proof.
  apply (block_deterministic Tiny.block false Tiny.keep_all Tiny.drop_all);
    reflexivity.
Defined.

(** In training mode with a positive rate the output does depend on the
    random source. *)
Example block_training_depends_on_random_source :
  Block.call Tiny.block true Tiny.keep_all [Tiny.input]
  ≠ Block.call Tiny.block true Tiny.drop_all [Tiny.input].
Proof. vm_compute. discriminate. Qed.



(** The two inputs differ at position 2, and so do the outputs there: the
    last row attends to itself. *)
Example block_last_row_sees_last_position :
  (y ← Block.call Tiny.block false Tiny.keep_all [Tiny.input] !! 0%nat; y !! 2%nat)
  ≠ (y ← Block.call Tiny.block false Tiny.keep_all [Tiny.input'] !! 0%nat; y !! 2%nat).
Proof. vm_compute. discriminate. Qed.
(** ** The sampler's model input window *)

Section WindowFacts.
Import Sampler.

Lemma length_py_repeat_singleton {A} (a : A) (n : Z) :
  length (py_repeat [a] n) = Z.to_nat n.
Proof.
  unfold py_repeat. induction (Z.to_nat n) as [|m IH]; simpl; [done|].
  by rewrite IH.
Qed.

Lemma py_repeat_singleton {A} (a : A) (n : Z) :
  py_repeat [a] n = replicate (Z.to_nat n) a.
Proof.
  unfold py_repeat. induction (Z.to_nat n) as [|m IH]; simpl; [done|].
  by rewrite IH.
Qed.

(** A sequence shorter than [maxlen] is padded on the right with zeros and
    the row to sample from is that of its last token. *)
Lemma model_input_shorter (tokens : list Z) :
  len tokens < maxlen →
  model_input tokens
  = (tokens ++ replicate (Z.to_nat (maxlen - len tokens)) 0, len tokens - 1).
Proof.
  intros Hlen. unfold model_input.
  rewrite bool_decide_false, bool_decide_true by lia.
  by rewrite py_repeat_singleton.
Qed.

Lemma model_input_exact (tokens : list Z) :
  len tokens = maxlen → model_input tokens = (tokens, maxlen - 1).
Proof.
  intros Hlen. unfold model_input.
  rewrite !bool_decide_false by lia. by rewrite Hlen.
Qed.

(** A sequence longer than [maxlen] is cut down to its first [maxlen]
    tokens, and the row to sample from is the last one. *)
Lemma model_input_longer (tokens : list Z) :
  len tokens > maxlen →
  model_input tokens = (take (Z.to_nat maxlen) tokens, maxlen - 1).
Proof.
  intros Hlen. unfold model_input.
  rewrite bool_decide_true by lia.
  unfold py_slice_to. by rewrite bool_decide_false by (unfold maxlen; lia).
Qed.

Lemma length_model_input (tokens : list Z) :
  length (model_input tokens).1 = Z.to_nat maxlen.
Proof.
  destruct (Z.lt_trichotomy (len tokens) maxlen) as [Hlt|[Heq|Hgt]].
  - rewrite model_input_shorter by done. simpl.
    rewrite length_app, length_replicate. unfold len in *. lia.
  - rewrite model_input_exact by done. simpl. unfold len in *. lia.
  - rewrite model_input_longer by lia. simpl.
    rewrite length_take. unfold len in *. lia.
Qed.

(** The row index is that of the last token of the window's content, and it
    is [-1] for an empty sequence. *)
Lemma model_input_sample_index (tokens : list Z) :
  (model_input tokens).2 = Z.min (len tokens) maxlen - 1.
Proof.
  destruct (Z.lt_trichotomy (len tokens) maxlen) as [Hlt|[Heq|Hgt]].
  - rewrite model_input_shorter by done. simpl. lia.
  - rewrite model_input_exact by done. simpl. lia.
  - rewrite model_input_longer by lia. simpl. lia.
Qed.

(** C4, on a working sequence of 81 tokens [0, 1, ..., 80]: the window is the
    first 80 tokens [0, ..., 79], not the last 80 tokens [1, ..., 80], and
    the row index is 79.  The newest token, 80, is not in the window. *)
Theorem model_input_of_long_sequence_is_prefix :
  model_input (arange 81) = (arange 80, 79)
  ∧ (model_input (arange 81)).1 ≠ drop 1 (arange 81)
  ∧ 80 ∉ (model_input (arange 81)).1.
Proof.
  split; [by vm_compute|]. split.
  - vm_compute. discriminate.
  - intros Hin. apply list_elem_of_In in Hin. vm_compute in Hin.
    repeat (destruct Hin as [Hin|Hin]; [discriminate Hin|]). done.
Qed.

(** Once the working sequence is longer than [maxlen], appending to it does
    not change the window any more. *)
Lemma model_input_longer_append (tokens : list Z) (a : Z) :
  maxlen ≤ len tokens →
  model_input (tokens ++ [a]) = (take (Z.to_nat maxlen) tokens, maxlen - 1).
Proof.
  intros Hlen. rewrite model_input_longer.
  - rewrite take_app_le; [done|]. unfold len in *. lia.
  - unfold len in *. rewrite length_app. simpl. lia.
Qed.

End WindowFacts.
(** ** Top-k selection *)

Section TopKFacts.
Import Sampler.

Lemma insert_desc_perm (p : Q * Z) (l : list (Q * Z)) :
  insert_desc p l ≡ₚ p :: l.
Proof.
  induction l as [|q l IH]; simpl; [done|].
  destruct (Qle_bool q.1 p.1); [done|].
  rewrite IH. apply Permutation_swap.
Qed.

Lemma sort_desc_perm (l : list (Q * Z)) : sort_desc l ≡ₚ l.
Proof.
  induction l as [|p l IH]; simpl; [done|].
  by rewrite insert_desc_perm, IH.
Qed.

Lemma insert_desc_sorted (p : Q * Z) (l : list (Q * Z)) :
  StronglySorted desc l → StronglySorted desc (insert_desc p l).
Proof.
  induction l as [|q l IH]; intros Hs; simpl.
  - repeat constructor.
  - apply StronglySorted_cons in Hs as [Hall Hs].
    destruct (Qle_bool q.1 p.1) eqn:Hle.
    + apply Qle_bool_iff in Hle.
      constructor; [by constructor|]. constructor; [done|].
      eapply Forall_impl; [exact Hall|]. intros x Hx. unfold desc in *.
      by eapply Qle_trans.
    + constructor; [by apply IH|].
      rewrite insert_desc_perm. constructor; [|done].
      unfold desc. apply Qlt_le_weak, Qnot_le_lt.
      intros Hqp. apply Qle_bool_iff in Hqp. congruence.
Qed.

Lemma sort_desc_sorted (l : list (Q * Z)) : StronglySorted desc (sort_desc l).
Proof.
  induction l as [|p l IH]; simpl; [constructor|].
  by apply insert_desc_sorted.
Qed.

(** The entries of a list paired with their indices. *)
Lemma elem_of_zip_arange (logits : list Q) (v : Q) (i : Z) :
  (v, i) ∈ zip logits (arange (length logits))
  ↔ 0 ≤ i ∧ logits !! Z.to_nat i = Some v.
Proof.
  rewrite list_elem_of_lookup. split.
  - intros [j Hj]. rewrite lookup_zip_with in Hj.
    destruct (logits !! j) as [w|] eqn:Hw; [|done]. simpl in Hj.
    rewrite lookup_arange in Hj by (by eapply lookup_lt_Some).
    simpl in Hj. injection Hj as -> <-. by rewrite Nat2Z.id; split; [lia|].
  - intros [Hi Hv]. exists (Z.to_nat i).
    rewrite lookup_zip_with, Hv. simpl.
    rewrite lookup_arange by (by eapply lookup_lt_Some). simpl.
    by rewrite Z2Nat.id.
Qed.

Lemma NoDup_arange (n : nat) : NoDup (arange n).
Proof. unfold arange. apply NoDup_fmap_2; [apply _|apply NoDup_seq]. Qed.

(** The result of [top_k] for an admissible [k], and what is left out. *)
Lemma top_k_Ok (logits : list Q) (k : Z) :
  0 ≤ k ≤ len logits →
  ∃ top rest,
    top_k logits k = Ok (top.*1, top.*2)
    ∧ length top = Z.to_nat k
    ∧ top ++ rest ≡ₚ zip logits (arange (length logits))
    ∧ StronglySorted desc (top ++ rest).
Proof.
  intros Hk. unfold top_k. rewrite bool_decide_true by done.
  set (sorted := sort_desc _).
  exists (take (Z.to_nat k) sorted), (drop (Z.to_nat k) sorted).
  split; [done|]. rewrite take_drop.
  assert (length sorted = length logits) as Hlen.
  { unfold sorted. rewrite sort_desc_perm, length_zip_with, length_arange. lia. }
  split; [|split].
  - rewrite length_take. unfold len in *. lia.
  - apply sort_desc_perm.
  - apply sort_desc_sorted.
Qed.

Lemma top_k_invalid (logits : list Q) (k : Z) :
  k < 0 ∨ len logits < k → top_k logits k = Raise InvalidArgumentError.
Proof. intros Hk. unfold top_k. by rewrite bool_decide_false by lia. Qed.

End TopKFacts.
(** ** Softmax and weighted choice *)

Section ChoiceFacts.
Import Sampler.
Local Open Scope Q_scope.

Variable exp : Q → Q.
Variable uniform : nat → Q.
Hypothesis exp_pos : ∀ x, 0 < exp x.

Lemma Qsum_pos (l : list Q) : Forall (λ a, 0 < a) l → l ≠ [] → 0 < Qsum l.
Proof.
  intros Hl Hne. destruct Hl as [|a l Ha Hl]; [done|]. simpl.
  apply Qlt_le_trans with (a + 0).
  - by rewrite Qplus_0_r.
  - apply Qplus_le_r. clear Hne Ha.
    induction Hl as [|b l Hb _ IH]; simpl; [apply Qle_refl|].
    apply Qle_trans with (0 + 0); [by rewrite Qplus_0_r; apply Qle_refl|].
    apply Qplus_le_compat; [by apply Qlt_le_weak|done].
Qed.

Lemma Qsum_div (l : list Q) (t : Q) :
  Qsum ((λ a, a / t) <$> l) == Qsum l / t.
Proof.
  induction l as [|a l IH]; simpl.
  - unfold Qdiv. ring.
  - rewrite IH. unfold Qdiv. ring.
Qed.

Lemma length_softmax (l : list Q) : length (softmax exp l) = length l.
Proof. unfold softmax. by rewrite !length_fmap. Qed.

(** Every entry of the softmax is the exponential of the entry divided by
    the sum of the exponentials of all entries. *)
Lemma softmax_lookup (l : list Q) (p : nat) :
  softmax exp l !! p = (λ v, exp v / Qsum (exp <$> l)) <$> l !! p.
Proof.
  unfold softmax. rewrite !list_lookup_fmap. by destruct (l !! p).
Qed.

(** The softmax of a non-empty list is a probability vector with positive
    entries. *)
Lemma softmax_distribution (l : list Q) :
  l ≠ [] →
  Forall (λ p, 0 < p) (softmax exp l) ∧ Qsum (softmax exp l) == 1.
Proof.
  intros Hne. unfold softmax.
  assert (0 < Qsum (exp <$> l)) as Htotal.
  { apply Qsum_pos.
    - apply Forall_fmap, Forall_forall. intros x _. apply exp_pos.
    - by destruct l. }
  split.
  - apply Forall_fmap, Forall_fmap, Forall_forall. intros x _. simpl.
    apply Qlt_shift_div_l; [done|]. rewrite Qmult_0_l. apply exp_pos.
  - rewrite Qsum_div. apply Qmult_inv_r.
    intros Hz. rewrite Hz in Htotal. by apply Qlt_irrefl in Htotal.
Qed.

Lemma length_cumsum_from (acc : Q) (p : list Q) :
  length (cumsum_from acc p) = length p.
Proof. revert acc. induction p as [|a p IH]; intros acc; simpl; auto. Qed.

Lemma last_cumsum_from (acc : Q) (p : list Q) (c : Q) :
  last (cumsum_from acc p) = Some c → c == acc + Qsum p.
Proof.
  revert acc. induction p as [|a p IH]; intros acc; simpl; [done|].
  destruct p as [|b p].
  - simpl. intros [= <-]. ring.
  - intros Hlast. rewrite (IH (acc + a)) by exact Hlast. simpl. ring.
Qed.

(** The search stops before the end when the last entry exceeds [u]. *)
Lemma searchsorted_right_lt (cdf : list Q) (u c : Q) :
  last cdf = Some c → u < c →
  (searchsorted_right cdf u < length cdf)%nat.
Proof.
  intros Hlast Hu. induction cdf as [|a cdf IH]; [done|]. simpl.
  destruct (Qle_bool a u) eqn:Hle; [|lia].
  destruct cdf as [|b cdf].
  - injection Hlast as ->. apply Qle_bool_iff in Hle.
    exfalso. by apply (Qlt_not_le u c).
  - apply IH in Hlast. lia.
Qed.

Lemma py_index_nat {A} (l : list A) (i : nat) (a : A) :
  l !! i = Some a → py_index l (Z.of_nat i) = Ok a.
Proof.
  intros Hi. unfold py_index. cbv zeta.
  rewrite (bool_decide_false (Z.of_nat i < 0)%Z) by lia.
  rewrite bool_decide_true by lia.
  by rewrite Nat2Z.id, Hi.
Qed.

(** A weighted choice over a probability vector consumes one draw and
    returns an entry of [a]. *)
Lemma choice_Done (a : list Z) (p : list Q) (st : state) :
  a ≠ [] → length p = length a →
  Forall (λ x, 0 < x) p → Qsum p == 1 →
  0 <= uniform (draws st) < 1 →
  ∃ tok, choice uniform a p st
         = Done tok {| heap := heap st; draws := S (draws st); stdout := stdout st |}
         ∧ tok ∈ a.
Proof.
  intros Ha Hlen Hpos Hsum [_ Hu]. unfold choice.
  rewrite bool_decide_false by done.
  rewrite bool_decide_false by (intros ?; done).
  assert (existsb (λ x, negb (Qle_bool 0 x)) p = false) as ->.
  { clear -Hpos. induction Hpos as [|x p Hx _ IH]; simpl; [done|].
    rewrite IH, orb_false_r.
    apply Qlt_le_weak, Qle_bool_iff in Hx. by rewrite Hx. }
  apply Qeq_bool_iff in Hsum as Hsumb. rewrite Hsumb. simpl.
  unfold mbind, M_bind, random_sample.
  set (cdf := cumsum p).
  assert (length cdf = length p) as Hcdf by apply length_cumsum_from.
  destruct (last cdf) as [c|] eqn:Hlast; last first.
  { apply last_None in Hlast. destruct p; [by destruct a|]. by rewrite Hlast in Hcdf. }
  simpl.
  assert (c == 1) as Hc.
  { rewrite (last_cumsum_from 0 p c Hlast), Hsum. ring. }
  set (idx := searchsorted_right _ _).
  assert (idx < length a)%nat as Hidx.
  { rewrite <- Hlen, <- Hcdf, <- (length_fmap (λ x, x / c)).
    apply searchsorted_right_lt with (c := c / c).
    - by rewrite fmap_last, Hlast.
    - rewrite Hc. exact Hu. }
  destruct (lookup_lt_is_Some_2 a idx Hidx) as [tok Htok].
  exists tok. unfold lift. rewrite (py_index_nat a idx tok Htok).
  split; [done|]. by eapply list_elem_of_lookup_2.
Qed.

(** Where the search stops on the normalised running sums: the sum of the
    entries before the position found is at most [u], and [u] is below that
    sum with the entry at the position added. *)
Lemma searchsorted_right_interval (c u : Q) (p : list Q) (acc : Q) (idx : nat) :
  acc / c <= u →
  idx = searchsorted_right ((λ x, x / c) <$> cumsum_from acc p) u →
  (acc + Qsum (take idx p)) / c <= u
  ∧ ((idx < length p)%nat → u < (acc + Qsum (take (S idx) p)) / c).
Proof.
  revert acc idx. induction p as [|a p IH]; intros acc idx Hacc ->.
  - split.
    + change ((acc + 0) / c <= u). by rewrite Qplus_0_r.
    + simpl. lia.
  - cbn [cumsum_from fmap list_fmap searchsorted_right].
    destruct (Qle_bool ((acc + a) / c) u) eqn:Hle.
    + apply Qle_bool_iff in Hle.
      destruct (IH (acc + a) _ Hle eq_refl) as [IH1 IH2].
      set (idx := searchsorted_right _ u) in *.
      split.
      * change ((acc + (a + Qsum (take idx p))) / c <= u).
        by rewrite Qplus_assoc.
      * intros Hlt. simpl in Hlt.
        change (u < (acc + (a + Qsum (take (S idx) p))) / c).
        rewrite Qplus_assoc. apply IH2. lia.
    + split.
      * change ((acc + 0) / c <= u). by rewrite Qplus_0_r.
      * intros _. change (u < (acc + (a + 0)) / c). rewrite Qplus_0_r.
        apply Qnot_le_lt. intros Hle'. apply Qle_bool_iff in Hle'. congruence.
Qed.

(** The weighted choice is the inverse of the cumulative distribution: the
    entry returned is the one at the position [idx] whose interval of
    cumulative probability, from the sum of the first [idx] probabilities to
    the sum of the first [idx + 1], holds the uniform draw. *)
Lemma choice_Done_interval (a : list Z) (p : list Q) (st : state) :
  a ≠ [] → length p = length a →
  Forall (λ x, 0 < x) p → Qsum p == 1 →
  0 <= uniform (draws st) < 1 →
  ∃ (idx : nat) tok,
    choice uniform a p st
    = Done tok {| heap := heap st; draws := S (draws st); stdout := stdout st |}
    ∧ a !! idx = Some tok
    ∧ Qsum (take idx p) <= uniform (draws st)
    ∧ uniform (draws st) < Qsum (take (S idx) p).
Proof.
  intros Ha Hlen Hpos Hsum [Hu0 Hu]. unfold choice.
  rewrite bool_decide_false by done.
  rewrite bool_decide_false by (intros ?; done).
  assert (existsb (λ x, negb (Qle_bool 0 x)) p = false) as ->.
  { clear -Hpos. induction Hpos as [|x p Hx _ IH]; simpl; [done|].
    rewrite IH, orb_false_r.
    apply Qlt_le_weak, Qle_bool_iff in Hx. by rewrite Hx. }
  apply Qeq_bool_iff in Hsum as Hsumb. rewrite Hsumb. simpl.
  unfold mbind, M_bind, random_sample.
  assert (length (cumsum p) = length p) as Hcdf by apply length_cumsum_from.
  destruct (last (cumsum p)) as [c|] eqn:Hlast; last first.
  { apply last_None in Hlast. destruct p; [by destruct a|]. by rewrite Hlast in Hcdf. }
  simpl.
  assert (c == 1) as Hc.
  { rewrite (last_cumsum_from 0 p c Hlast), Hsum. ring. }
  unfold cumsum.
  set (idx := searchsorted_right _ _).
  assert (idx < length a)%nat as Hidx.
  { rewrite <- Hlen, <- Hcdf, <- (length_fmap (λ x, x / c)).
    apply searchsorted_right_lt with (c := c / c).
    - by rewrite fmap_last, Hlast.
    - rewrite Hc. exact Hu. }
  destruct (lookup_lt_is_Some_2 a idx Hidx) as [tok Htok].
  exists idx, tok. unfold lift. rewrite (py_index_nat a idx tok Htok).
  split; [done|]. split; [done|].
  assert (∀ s, (0 + s) / c == s) as Hnorm.
  { intros s. rewrite Hc. unfold Qdiv. change (/ 1) with 1. ring. }
  destruct (searchsorted_right_interval c (uniform (draws st)) p 0 idx) as [H1 H2];
    [unfold Qdiv; by rewrite Qmult_0_l|done|].
  rewrite Hnorm in H1. split; [done|].
  rewrite <- (Hnorm (Qsum (take (S idx) p))). apply H2. lia.
Qed.

Lemma choice_empty (p : list Q) (st : state) :
  choice uniform [] p st = Raised ValueError st.
Proof. done. Qed.

End ChoiceFacts.
(** ** The sampling step *)

Section SampleFacts.
Import Sampler.

(** What [top_k] returns for an admissible [k]: [k] distinct indices into
    the logits, each paired with its logit, and no logit that was left out
    is larger than one that was selected. *)
Lemma top_k_spec (logits : list Q) (k : Z) :
  0 ≤ k ≤ len logits →
  ∃ vals idxs,
    top_k logits k = Ok (vals, idxs)
    ∧ length vals = Z.to_nat k ∧ length idxs = Z.to_nat k
    ∧ NoDup idxs
    ∧ (∀ p i, idxs !! p = Some i →
         0 ≤ i < len logits ∧ logits !! Z.to_nat i = vals !! p)
    ∧ (∀ i (j : nat) v w,
         i ∈ idxs → logits !! Z.to_nat i = Some v →
         logits !! j = Some w → Z.of_nat j ∉ idxs → (w <= v)%Q).
Proof.
  intros Hk. destruct (top_k_Ok logits k Hk) as (top & rest & Htop & Hlen & Hperm & Hsorted).
  exists top.*1, top.*2. split; [done|].
  rewrite !length_fmap. split; [done|]. split; [done|].
  assert (∀ v i, (v, i) ∈ top ++ rest ↔ 0 ≤ i ∧ logits !! Z.to_nat i = Some v) as Hmem.
  { intros v i. rewrite Hperm. apply elem_of_zip_arange. }
  split; [|split].
  - assert (NoDup (top ++ rest).*2) as Hnd.
    { rewrite Hperm, snd_zip by (rewrite length_arange; lia). apply NoDup_arange. }
    rewrite fmap_app in Hnd. by apply NoDup_app in Hnd as [? _].
  - intros p i Hp. rewrite list_lookup_fmap in Hp.
    destruct (top !! p) as [[v i']|] eqn:Hvi; [|done]. simpl in Hp. injection Hp as ->.
    assert ((v, i) ∈ top ++ rest) as Hin.
    { apply elem_of_app. left. by eapply list_elem_of_lookup_2. }
    apply Hmem in Hin as [Hi Hv].
    rewrite list_lookup_fmap, Hvi. simpl. split; [|done].
    apply lookup_lt_Some in Hv. unfold len. lia.
  - intros i j v w Hi Hv Hw Hj.
    apply list_elem_of_fmap in Hi as ([v' i'] & -> & Hin). simpl in Hv.
    assert ((v', i') ∈ top ++ rest) as Hin' by (apply elem_of_app; by left).
    apply Hmem in Hin' as [_ Hv']. rewrite Hv in Hv'. injection Hv' as <-.
    assert ((w, Z.of_nat j) ∈ top ++ rest) as Hjn.
    { apply Hmem. rewrite Nat2Z.id. split; [lia|done]. }
    apply elem_of_app in Hjn as [Hjn|Hjn].
    + exfalso. apply Hj. apply list_elem_of_fmap. by exists (w, Z.of_nat j).
    + by apply (StronglySorted_app_1_elem_of desc top rest (v, i') (w, Z.of_nat j)).
Qed.

(** The sampling step on admissible arguments completes normally with a
    valid index into the logits and consumes one draw. *)
Lemma sample_from_Done (exp : Q → Q) (uniform : nat → Q)
    (self : TextGenerator) (logits : list Q) (st : state) :
  (∀ x, 0 < exp x)%Q →
  (0 <= uniform (draws st) < 1)%Q →
  0 < k self ≤ len logits →
  ∃ tok,
    sample_from exp uniform self logits st
    = Done tok {| heap := heap st; draws := S (draws st); stdout := stdout st |}
    ∧ 0 ≤ tok < len logits.
Proof.
  intros Hexp Hu Hk.
  destruct (top_k_spec logits (k self)) as
    (vals & idxs & Htop & Hvals & Hidxs & _ & Hlookup & _); [lia|].
  assert (vals ≠ []) as Hne by (intros ->; simpl in Hvals; lia).
  destruct (softmax_distribution exp Hexp vals Hne) as [Hpos Hsum].
  destruct (choice_Done uniform idxs (softmax exp vals) st) as (tok & Hchoice & Htok);
    [intros ->; simpl in Hidxs; lia|rewrite length_softmax; lia|done..|].
  exists tok. split.
  - unfold sample_from, mbind, M_bind, lift. by rewrite Htop.
  - apply list_elem_of_lookup in Htok as [p Hp].
    by apply Hlookup in Hp as [? _].
Qed.

(** C5. For logits over a vocabulary and [0 < k <= vocabulary size],
    [sample_from] selects [k] distinct indices holding the [k] largest logits,
    turns exactly these [k] logits into a probability vector by softmax (the
    probability at position [p] is the exponential of the [p]-th selected
    logit divided by the sum of the exponentials of the [k] selected logits),
    and returns one of the [k] selected indices, which is therefore a valid
    token id below the vocabulary size: the index at the position [pos] whose
    interval of cumulative softmax probability holds the uniform draw.  The
    exponential is assumed positive and the uniform draw to lie in [[0, 1)]. *)
Theorem sample_from_returns_top_k_index
    (exp : Q → Q) (uniform : nat → Q)
    (self : TextGenerator) (logits : list Q) (st : state) :
  (∀ x, 0 < exp x)%Q →
  (0 <= uniform (draws st) < 1)%Q →
  0 < k self ≤ len logits →
  ∃ vals idxs tok (pos : nat),
    top_k logits (k self) = Ok (vals, idxs)
    ∧ length vals = Z.to_nat (k self) ∧ length idxs = Z.to_nat (k self)
    ∧ NoDup idxs
    ∧ (∀ p i, idxs !! p = Some i →
         0 ≤ i < len logits ∧ logits !! Z.to_nat i = vals !! p)
    ∧ (∀ i (j : nat) v w,
         i ∈ idxs → logits !! Z.to_nat i = Some v →
         logits !! j = Some w → Z.of_nat j ∉ idxs → (w <= v)%Q)
    ∧ length (softmax exp vals) = Z.to_nat (k self)
    ∧ Forall (λ p, 0 < p)%Q (softmax exp vals)
    ∧ (Qsum (softmax exp vals) == 1)%Q
    ∧ sample_from exp uniform self logits st
      = choice uniform idxs (softmax exp vals) st
    ∧ sample_from exp uniform self logits st
      = Done tok {| heap := heap st; draws := S (draws st); stdout := stdout st |}
    ∧ tok ∈ idxs
    ∧ 0 ≤ tok < len logits
    ∧ (∀ p v, vals !! p = Some v →
         softmax exp vals !! p = Some (exp v / Qsum (exp <$> vals))%Q)
    ∧ idxs !! pos = Some tok
    ∧ (Qsum (take pos (softmax exp vals)) <= uniform (draws st))%Q
    ∧ (uniform (draws st) < Qsum (take (S pos) (softmax exp vals)))%Q.
Proof.
  intros Hexp Hu Hk.
  destruct (top_k_spec logits (k self)) as
    (vals & idxs & Htop & Hvals & Hidxs & Hnd & Hlookup & Hmax); [lia|].
  assert (vals ≠ []) as Hne by (intros ->; simpl in Hvals; lia).
  destruct (softmax_distribution exp Hexp vals Hne) as [Hpos Hsum].
  destruct (choice_Done_interval uniform idxs (softmax exp vals) st)
    as (pos & tok & Hchoice & Hpos_tok & Hlow & Hhigh);
    [intros ->; simpl in Hidxs; lia|rewrite length_softmax; lia|done..|].
  assert (tok ∈ idxs) as Htok by (by eapply list_elem_of_lookup_2).
  exists vals, idxs, tok, pos.
  repeat (split; [done|]).
  split; [rewrite length_softmax; lia|].
  repeat (split; [done|]).
  assert (sample_from exp uniform self logits st
          = choice uniform idxs (softmax exp vals) st) as Hsample.
  { unfold sample_from, mbind, M_bind, lift. by rewrite Htop. }
  split; [done|]. split; [by rewrite Hsample|]. split; [done|].
  split; [by apply Hlookup in Hpos_tok as [? _]|].
  split; [|done].
  intros p v Hv. by rewrite softmax_lookup, Hv.
Qed.

Lemma Q_exp_pos (x : Q) : (0 < Q_exp x)%Q.
Proof.
  unfold Q_exp. rewrite Qred_correct.
  apply Qpower_0_lt. reflexivity.
Qed.

Lemma sample_from_returns_top_k_index_witness :
  ∃ vals idxs tok (pos : nat),
    let logits := [3; -1; 7; 2; 5]%Q in
    let st := Toy.initial in
    top_k logits 3 = Ok (vals, idxs)
    ∧ length vals = 3%nat ∧ length idxs = 3%nat
    ∧ NoDup idxs
    ∧ (∀ p i, idxs !! p = Some i →
         0 ≤ i < len logits ∧ logits !! Z.to_nat i = vals !! p)
    ∧ (∀ i (j : nat) v w,
         i ∈ idxs → logits !! Z.to_nat i = Some v →
         logits !! j = Some w → Z.of_nat j ∉ idxs → (w <= v)%Q)
    ∧ length (softmax Q_exp vals) = 3%nat
    ∧ Forall (λ p, 0 < p)%Q (softmax Q_exp vals)
    ∧ (Qsum (softmax Q_exp vals) == 1)%Q
    ∧ sample_from Q_exp Toy.uniform (Toy.generator 3 3) logits st
      = choice Toy.uniform idxs (softmax Q_exp vals) st
    ∧ sample_from Q_exp Toy.uniform (Toy.generator 3 3) logits st
      = Done tok {| heap := heap st; draws := S (draws st); stdout := stdout st |}
    ∧ tok ∈ idxs
    ∧ 0 ≤ tok < len logits
    ∧ (∀ p v, vals !! p = Some v →
         softmax Q_exp vals !! p = Some (Q_exp v / Qsum (Q_exp <$> vals))%Q)
    ∧ idxs !! pos = Some tok
    ∧ (Qsum (take pos (softmax Q_exp vals)) <= Toy.uniform (draws st))%Q
    ∧ (Toy.uniform (draws st) < Qsum (take (S pos) (softmax Q_exp vals)))%Q.
Proof.
  apply (sample_from_returns_top_k_index Q_exp Toy.uniform
           (Toy.generator 3 3) [3; -1; 7; 2; 5]%Q Toy.initial).
  - exact Q_exp_pos.
  - split; vm_compute; [discriminate|reflexivity].
  - vm_compute. split; [reflexivity|discriminate].
Defined.

(** The selection on concrete logits: the three largest of five, in
    decreasing order, with their indices. *)
Example top_k_example :
  top_k [3; -1; 7; 2; 5]%Q 3 = Ok ([7; 5; 3]%Q, [2; 4; 0]).
Proof. reflexivity. Qed.

End SampleFacts.
(** ** Reasoning about computations on the store *)

Section MonadFacts.

Lemma wp_mono {A} (m : M A) (Φ Φ' : A → state → Prop)
    (Ψ Ψ' : exn → state → Prop) (st : state) :
  wp m Φ Ψ st →
  (∀ a st', Φ a st' → Φ' a st') →
  (∀ e st', Ψ e st' → Ψ' e st') →
  wp m Φ' Ψ' st.
Proof. unfold wp. destruct (m st); auto. Qed.

Lemma wp_ret {A} (a : A) (Φ : A → state → Prop) Ψ (st : state) :
  Φ a st → wp (mret a) Φ Ψ st.
Proof. done. Qed.

Lemma wp_bind {A B} (m : M A) (f : A → M B)
    (Φ : B → state → Prop) (Ψ : exn → state → Prop) (st : state) :
  wp m (λ a st', wp (f a) Φ Ψ st') Ψ st → wp (m ≫= f) Φ Ψ st.
Proof. unfold wp, mbind, M_bind. by destruct (m st). Qed.

Lemma wp_lift {A} (r : result A) (Φ : A → state → Prop) Ψ (st : state) :
  match r with Ok a => Φ a st | Raise e => Ψ e st end → wp (lift r) Φ Ψ st.
Proof. unfold wp, lift. by destruct r. Qed.

Lemma wp_read (l : loc) (Φ : list Z → state → Prop) Ψ (st : state) :
  match heap st !! l with Some v => Φ v st | None => Ψ IndexError st end →
  wp (read l) Φ Ψ st.
Proof. unfold wp, read. by destruct (heap st !! l). Qed.

Lemma wp_append (l : loc) (a : Z) (Φ : unit → state → Prop) Ψ (st : state) :
  match heap st !! l with
  | Some v => Φ () {| heap := <[l := v ++ [a]]> (heap st);
                      draws := draws st; stdout := stdout st |}
  | None => Ψ IndexError st
  end →
  wp (append l a) Φ Ψ st.
Proof. unfold wp, append. by destruct (heap st !! l). Qed.

(** The new list is at a location that held nothing before. *)
Lemma wp_alloc (v : list Z) (Φ : loc → state → Prop) Ψ (st : state) :
  (∀ l, heap st !! l = None →
        Φ l {| heap := <[l := v]> (heap st);
               draws := draws st; stdout := stdout st |}) →
  wp (alloc v) Φ Ψ st.
Proof.
  intros HΦ. unfold wp, alloc. apply HΦ.
  apply not_elem_of_dom, is_fresh.
Qed.

Lemma wp_print (s : string) (Φ : unit → state → Prop) Ψ (st : state) :
  Φ () {| heap := heap st; draws := draws st; stdout := stdout st ++ [s] |} →
  wp (print s) Φ Ψ st.
Proof. done. Qed.

End MonadFacts.
(** ** The generation loop *)

Section LoopFacts.
Import Sampler.

Variable predict : list Z → list (list Q).
Variable exp : Q → Q.
Variable uniform : nat → Q.

(** Sampling completes, normally or with an exception, and touches nothing
    but the position in the stream of draws. *)
Lemma wp_choice (a : list Z) (p : list Q)
    (Φ : Z → state → Prop) (Ψ : exn → state → Prop) (st : state) :
  (∀ tok d, Φ tok {| heap := heap st; draws := d; stdout := stdout st |}) →
  (∀ e d, Ψ e {| heap := heap st; draws := d; stdout := stdout st |}) →
  wp (choice uniform a p) Φ Ψ st.
Proof.
  intros HΦ HΨ. destruct st as [h d o]. simpl in *.
  unfold wp, choice.
  repeat (case_bool_decide; [apply HΨ|]).
  destruct (existsb _ p); [apply HΨ|].
  destruct (negb _); [apply HΨ|].
  unfold mbind, M_bind, random_sample, lift. simpl.
  destruct (py_index _ _); [apply HΦ|apply HΨ].
Qed.

Lemma wp_sample_from (self : TextGenerator) (logits : list Q)
    (Φ : Z → state → Prop) (Ψ : exn → state → Prop) (st : state) :
  (∀ tok d, Φ tok {| heap := heap st; draws := d; stdout := stdout st |}) →
  (∀ e d, Ψ e {| heap := heap st; draws := d; stdout := stdout st |}) →
  wp (sample_from exp uniform self logits) Φ Ψ st.
Proof.
  intros HΦ HΨ. unfold sample_from. apply wp_bind, wp_lift.
  destruct (top_k logits (k self)) as [[vals idxs]|e].
  - by apply wp_choice.
  - destruct st. apply HΨ.
Qed.

Lemma grown_nil (sl gl : loc) (st st' : state) (tokens generated : list Z) :
  heap st !! sl = Some tokens → heap st !! gl = Some generated →
  heap st' = heap st → stdout st' = stdout st →
  grown sl gl st tokens generated [] st'.
Proof.
  intros Hsl Hgl Hh Ho. unfold grown. rewrite !app_nil_r, Hh. done.
Qed.

(** With enough fuel the loop completes.  It appends the same new tokens to
    the working sequence and to the generated tokens, and leaves every other
    list alone.  When it completes normally, the number of generated tokens
    is [max_tokens + 1], unless it was larger to begin with. *)
Lemma generate_grows (self : TextGenerator) (sl gl : loc) (fuel : nat) :
  sl ≠ gl →
  ∀ (st : state) (tokens generated : list Z),
    heap st !! sl = Some tokens →
    heap st !! gl = Some generated →
    (Z.to_nat (max_tokens self + 1 - len generated) < fuel)%nat →
    wp (generate predict exp uniform fuel self sl gl (len generated))
       (λ _ st', ∃ new, grown sl gl st tokens generated new st'
                        ∧ len (generated ++ new)
                          = Z.max (len generated) (max_tokens self + 1))
       (λ _ st', ∃ new, grown sl gl st tokens generated new st')
       st.
Proof.
  intros Hne. induction fuel as [|fuel IH]; intros st tokens generated Hsl Hgl Hfuel;
    [lia|].
  simpl. case_bool_decide as Hcond; last first.
  { apply wp_ret. exists []. split; [by apply grown_nil|].
    rewrite app_nil_r. lia. }
  apply wp_bind, wp_read. rewrite Hsl.
  destruct (model_input tokens) as [x sample_index].
  apply wp_bind, wp_lift.
  destruct (py_index (predict x) sample_index) as [row|e];
    [|exists []; by apply grown_nil].
  apply wp_bind, wp_sample_from; cbn [heap draws stdout];
    [|intros e d; exists []; by apply grown_nil].
  intros tok d.
  apply wp_bind, wp_append; cbn [heap draws stdout]. rewrite Hgl.
  apply wp_bind, wp_append; cbn [heap draws stdout].
  rewrite lookup_insert_ne, Hsl by done.
  apply wp_bind, wp_read; cbn [heap draws stdout].
  rewrite lookup_insert_ne, lookup_insert_eq by done.
  set (st2 := {| heap := _; draws := d; stdout := stdout st |}).
  assert (heap st2 !! sl = Some (tokens ++ [tok])) as Hsl2
    by (by apply lookup_insert_eq).
  assert (heap st2 !! gl = Some (generated ++ [tok])) as Hgl2.
  { unfold st2; cbn [heap]. by rewrite lookup_insert_ne, lookup_insert_eq. }
  assert (len (generated ++ [tok]) = len generated + 1) as Hlen.
  { unfold len. rewrite length_app. simpl. lia. }
  assert (∀ new st', grown sl gl st2 (tokens ++ [tok]) (generated ++ [tok]) new st' →
                     grown sl gl st tokens generated (tok :: new) st') as Hstep.
  { intros new st' (Hs & Hg & Hframe & Hout). unfold grown.
    rewrite <- !app_assoc in Hs, Hg. simpl in Hs, Hg.
    repeat split; [done|done| |done].
    intros l Hl1 Hl2. rewrite Hframe by done.
    unfold st2; cbn [heap]. by rewrite !lookup_insert_ne. }
  eapply wp_mono; [apply (IH st2 _ _ Hsl2 Hgl2); lia| |].
  - intros _ st' (new & Hgrown & Hcount). exists (tok :: new).
    split; [by apply Hstep|].
    rewrite <- app_assoc in Hcount. simpl in Hcount. lia.
  - intros _ st' (new & Hgrown). exists (tok :: new). by apply Hstep.
Qed.

End LoopFacts.
(** ** One call of the callback, and many *)

Section EpochFacts.
Import Sampler.

Variable predict : list Z → list (list Q).
Variable exp : Q → Q.
Variable uniform : nat → Q.


Lemma untouched_insert_fresh (st st' : state) (l : loc) (v : list Z) :
  heap st !! l = None → heap st' = <[l := v]> (heap st) → untouched st st'.
Proof.
  intros Hfresh Hh l' [w Hw]. rewrite Hh, lookup_insert_ne; [done|].
  intros ->. congruence.
Qed.

(** With enough fuel a call of the callback completes, normally or with an
    exception; either way no list that existed before the call has changed.
    When it completes normally and the epoch is not skipped, the text it
    printed is made of the prompt and [max_tokens + 1] new tokens. *)
Lemma wp_on_epoch_end (self : TextGenerator) (fuel : nat) (epoch : Z)
    (st : state) (prompt : list Z) :
  heap st !! start_tokens self = Some prompt →
  (Z.to_nat (max_tokens self + 1) < fuel)%nat →
  wp (on_epoch_end predict exp uniform fuel self epoch)
     (λ _ st', untouched st st' ∧ printed self epoch prompt st st')
     (λ _ st', untouched st st')
     st.
Proof.
  intros Hprompt Hfuel. unfold on_epoch_end, working_copy.
  apply wp_bind, wp_bind, wp_read. rewrite Hprompt.
  apply wp_alloc. intros sl Hsl.
  set (st1 := {| heap := <[sl := prompt]> (heap st) |}).
  assert (untouched st st1) as H1 by (by eapply untouched_insert_fresh).
  apply wp_bind, wp_lift. unfold py_mod.
  case_bool_decide as Hzero; [done|].
  case_bool_decide as Hskip.
  { apply wp_ret. split; [done|]. by left. }
  apply wp_bind, wp_alloc. intros gl Hgl.
  set (st2 := {| heap := <[gl := []]> (heap st1) |}).
  assert (sl ≠ gl) as Hne.
  { intros <-. unfold st1 in Hgl; cbn [heap] in Hgl.
    by rewrite lookup_insert_eq in Hgl. }
  assert (untouched st st2) as H2.
  { intros l Hl. unfold st2; cbn [heap].
    rewrite lookup_insert_ne; [by apply H1|].
    intros <-. rewrite <- (H1 gl Hl) in Hl. rewrite Hgl in Hl. by destruct Hl. }
  assert (heap st2 !! sl = Some prompt) as Hsl2.
  { unfold st2, st1; cbn [heap]. by rewrite lookup_insert_ne, lookup_insert_eq. }
  assert (heap st2 !! gl = Some []) as Hgl2 by (by apply lookup_insert_eq).
  assert (∀ new st', grown sl gl st2 prompt [] new st' → untouched st st') as Hframe.
  { intros new st' (_ & _ & Hframe & _) l Hl.
    rewrite <- (H2 l Hl). apply Hframe.
    - intros ->. rewrite Hsl in Hl. by destruct Hl.
    - intros ->. rewrite <- (H1 gl Hl) in Hl. rewrite Hgl in Hl. by destruct Hl. }
  apply wp_bind.
  eapply wp_mono;
    [apply (generate_grows predict exp uniform self sl gl fuel Hne st2 prompt []);
     [done|done|unfold len; simpl length; lia]| |]; cbn beta.
  - intros _ st' (new & Hgrown & Hcount).
    pose proof (Hframe new st' Hgrown) as Hun.
    destruct Hgrown as (_ & Hg & _ & Hout).
    apply wp_bind, wp_read.
    rewrite (Hun (start_tokens self)), Hprompt by (by rewrite Hprompt).
    apply wp_bind, wp_read. rewrite Hg. simpl.
    apply wp_bind, wp_lift.
    destruct (mapM (detokenize self) (prompt ++ new)) as [words|e] eqn:Hwords; [|done].
    apply wp_print. split; [done|].
    right. split; [done|]. exists new, words. split; [|split; [done|]].
    + simpl in Hcount. unfold len in *. simpl in Hcount. lia.
    + cbn [stdout]. by rewrite Hout.
  - intros e st' (new & Hgrown). by eapply Hframe.
Qed.





End EpochFacts.


(** Three calls on the small configuration: each prints the prompt
    followed by four new tokens, and the prompt list at location [1] is
    the same after the three calls. *)
Example three_epochs :
  ∃ st',
    Sampler.on_epochs Toy.predict Q_exp Toy.uniform 10 (Toy.generator 3 10)
      [0; 1; 2] Toy.initial = Done () st'
    ∧ heap st' !! Toy.prompt = Some [5; 12; 9]
    ∧ length (stdout st') = 3%nat.
Proof. eexists. split; [vm_compute; reflexivity|]. split; reflexivity. Qed.
(** ** Budget and configuration *)

Section ConfigFacts.
Import Sampler.

(** Whenever a call of the callback completes normally on an epoch that is
    not skipped, it has printed one text, made of the prompt followed by
    [max_tokens + 1] new tokens (none when [max_tokens] is negative). *)
Lemma on_epoch_end_prints (predict : list Z → list (list Q)) (exp : Q → Q)
    (uniform : nat → Q) (self : TextGenerator) (fuel : nat) (epoch : Z)
    (st st' : state) (prompt : list Z) :
  heap st !! start_tokens self = Some prompt →
  (Z.to_nat (max_tokens self + 1) < fuel)%nat →
  (epoch + 1) `mod` print_every self = 0 →
  on_epoch_end predict exp uniform fuel self epoch st = Done () st' →
  ∃ new words,
    len new = Z.max 0 (max_tokens self + 1)
    ∧ mapM (detokenize self) (prompt ++ new) = Ok words
    ∧ stdout st' = stdout st ++ [generated_text (join " " words)].
Proof.
  intros Hprompt Hfuel Hepoch Hrun.
  pose proof (wp_on_epoch_end predict exp uniform self fuel epoch st prompt
                Hprompt Hfuel) as Hwp.
  unfold wp in Hwp. rewrite Hrun in Hwp.
  destruct Hwp as [_ [[Hskip _]|[_ Hprinted]]]; [done|exact Hprinted].
Qed.

(** C3, on the prompt [[5, 12, 9]]: with budget 0 the callback generates one
    token and prints four words, not the prompt unchanged; with budget 3 it
    generates four tokens and prints seven words, not six. *)
Theorem budget_is_exceeded_by_one :
  (∃ st, Toy.run 10 0 10 = Done () st
         ∧ heap st !! 3%positive = Some [1]
         ∧ stdout st = [generated_text "this movie is [UNK]"])
  ∧ (∃ st, Toy.run 10 3 10 = Done () st
           ∧ heap st !! 3%positive = Some [1; 9; 1; 12]
           ∧ stdout st = [generated_text "this movie is [UNK] is [UNK] movie"]).
Proof.
  split; (eexists; split; [vm_compute; reflexivity|]; split; reflexivity).
Qed.

(** Construction with a top-k of 0, or of 17 for a vocabulary of 16 words,
    completes normally; the error appears in the first call of the callback,
    when it reaches the sampling step. *)
Lemma init_accepts_invalid_top_k :
  init 3 Toy.prompt Toy.vocab 0 1 Toy.initial
    = Done (Toy.generator 3 0) Toy.initial
  ∧ init 3 Toy.prompt Toy.vocab 17 1 Toy.initial
    = Done (Toy.generator 3 17) Toy.initial
  ∧ (∃ st, Toy.run 10 3 0 = Raised ValueError st)
  ∧ (∃ st, Toy.run 10 3 17 = Raised InvalidArgumentError st).
Proof.
  split; [reflexivity|]. split; [reflexivity|].
  split; eexists; vm_compute; reflexivity.
Qed.

(** C8, as the code has it. The constructor validates nothing: for every
    top-k it completes normally and stores the value as given.  A top-k that
    is not positive or exceeds the number of logits is rejected only by the
    sampling step: [sample_from] raises, without drawing a token. *)
Theorem invalid_top_k_fails_at_sampling
    (exp : Q → Q) (uniform : nat → Q)
    (max_tokens : Z) (start_tokens : loc) (index_to_word : list string)
    (top_k print_every : Z) (logits : list Q) (st : state) :
  top_k ≤ 0 ∨ len logits < top_k →
  ∃ self,
    init max_tokens start_tokens index_to_word top_k print_every st = Done self st
    ∧ k self = top_k
    ∧ ∃ e, sample_from exp uniform self logits st = Raised e st.
Proof.
  intros Hk. eexists. split; [reflexivity|]. split; [reflexivity|].
  unfold sample_from, mbind, M_bind, lift. cbn [k].
  destruct (decide (top_k = 0)) as [->|Hz].
  - unfold Sampler.top_k. rewrite bool_decide_true by (unfold len; lia).
    simpl. by exists ValueError.
  - rewrite top_k_invalid by lia. by exists InvalidArgumentError.
Qed.

Lemma invalid_top_k_fails_at_sampling_witness :
  ∃ self,
    init 3 Toy.prompt Toy.vocab 17 1 Toy.initial = Done self Toy.initial
    ∧ k self = 17
    ∧ ∃ e, sample_from Q_exp Toy.uniform self
             (default [] (head (Toy.predict [5]))) Toy.initial
           = Raised e Toy.initial.
Proof.
  apply (invalid_top_k_fails_at_sampling Q_exp Toy.uniform 3 Toy.prompt
           Toy.vocab 17 1 (default [] (head (Toy.predict [5]))) Toy.initial).
  right. vm_compute. reflexivity.
Defined.

End ConfigFacts.
(** ** Normal completion on well-formed configurations *)

Section Total.
Import Sampler.

Variable predict : list Z → list (list Q).
Variable exp : Q → Q.
Variable uniform : nat → Q.
Variable self : TextGenerator.
(** The number of logits per position. *)
Variable V : Z.

Hypothesis exp_pos : ∀ x, (0 < exp x)%Q.
Hypothesis uniform_range : ∀ n, (0 <= uniform n < 1)%Q.
Hypothesis predict_shape : ∀ x,
  length x = Z.to_nat maxlen →
  length (predict x) = Z.to_nat maxlen ∧ Forall (λ row, len row = V) (predict x).
Hypothesis k_range : 0 < k self ≤ V.

Lemma py_index_Ok {A} (l : list A) (i : Z) :
  - len l ≤ i < len l → ∃ a, py_index l i = Ok a ∧ a ∈ l.
Proof.
  intros Hi. unfold py_index, len in *. cbv zeta.
  set (j := if bool_decide (i < 0) then _ else _).
  assert (0 ≤ j < Z.of_nat (length l)) as Hj by (unfold j; case_bool_decide; lia).
  rewrite bool_decide_true by lia.
  destruct (lookup_lt_is_Some_2 l (Z.to_nat j)) as [a Ha]; [lia|].
  exists a. rewrite Ha. split; [done|]. by eapply list_elem_of_lookup_2.
Qed.

(** The row the loop samples from exists and has [V] logits. *)
Lemma predicted_row (tokens : list Z) :
  ∃ row, py_index (predict (model_input tokens).1) (model_input tokens).2 = Ok row
         ∧ len row = V.
Proof.
  destruct (predict_shape (model_input tokens).1) as [Hrows Hshape];
    [apply length_model_input|].
  destruct (py_index_Ok (predict (model_input tokens).1) (model_input tokens).2)
    as (row & Hrow & Hin).
  { rewrite model_input_sample_index. unfold len. rewrite Hrows.
    unfold maxlen. lia. }
  exists row. split; [done|].
  by eapply Forall_forall in Hshape.
Qed.

Lemma generate_Done (sl gl : loc) (fuel : nat) :
  sl ≠ gl →
  ∀ (st : state) (tokens generated : list Z),
    heap st !! sl = Some tokens →
    heap st !! gl = Some generated →
    (Z.to_nat (max_tokens self + 1 - len generated) < fuel)%nat →
    wp (generate predict exp uniform fuel self sl gl (len generated))
       (λ _ st', ∃ new, grown sl gl st tokens generated new st'
                        ∧ len (generated ++ new)
                          = Z.max (len generated) (max_tokens self + 1)
                        ∧ Forall (λ t, 0 ≤ t < V) new
                        ∧ draws st' = (draws st + length new)%nat)
       (λ _ _, False)
       st.
Proof.
  intros Hne. induction fuel as [|fuel IH]; intros st tokens generated Hsl Hgl Hfuel;
    [lia|].
  simpl. case_bool_decide as Hcond; last first.
  { apply wp_ret. exists []. split; [by apply grown_nil|].
    rewrite app_nil_r. split; [lia|]. split; [done|]. simpl. lia. }
  apply wp_bind, wp_read. rewrite Hsl.
  destruct (predicted_row tokens) as (row & Hrow & HV).
  destruct (model_input tokens) as [x sample_index]. simpl in Hrow.
  apply wp_bind, wp_lift. rewrite Hrow.
  apply wp_bind.
  destruct (sample_from_Done exp uniform self row st exp_pos (uniform_range _))
    as (tok & Hsample & Htok); [lia|].
  unfold wp at 1. rewrite Hsample.
  apply wp_bind, wp_append; cbn [heap draws stdout]. rewrite Hgl.
  apply wp_bind, wp_append; cbn [heap draws stdout].
  rewrite lookup_insert_ne, Hsl by done.
  apply wp_bind, wp_read; cbn [heap draws stdout].
  rewrite lookup_insert_ne, lookup_insert_eq by done.
  set (st2 := {| heap := _; draws := S (draws st); stdout := stdout st |}).
  assert (heap st2 !! sl = Some (tokens ++ [tok])) as Hsl2
    by (by apply lookup_insert_eq).
  assert (heap st2 !! gl = Some (generated ++ [tok])) as Hgl2.
  { unfold st2; cbn [heap]. by rewrite lookup_insert_ne, lookup_insert_eq. }
  assert (len (generated ++ [tok]) = len generated + 1) as Hlen.
  { unfold len. rewrite length_app. simpl. lia. }
  eapply wp_mono; [apply (IH st2 _ _ Hsl2 Hgl2); lia| |done].
  intros _ st' (new & (Hs & Hg & Hframe & Hout) & Hcount & Hnew & Hdraws).
  exists (tok :: new).
  rewrite <- !app_assoc in Hs, Hg, Hcount. simpl in Hs, Hg, Hcount.
  split; [|split; [lia|split]].
  - repeat split; [done|done| |done].
    intros l Hl1 Hl2. rewrite Hframe by done.
    unfold st2; cbn [heap]. by rewrite !lookup_insert_ne.
  - constructor; [lia|done].
  - rewrite Hdraws. unfold st2; cbn [draws]. simpl. lia.
Qed.

Lemma detokenize_all (tokens : list Z) :
  Forall (λ t, - len (index_to_word self) ≤ t < len (index_to_word self)) tokens →
  ∃ words, mapM (detokenize self) tokens = Ok words.
Proof.
  intros Htokens.
  exists ((λ t, match detokenize self t with Ok w => w | Raise _ => "" end) <$> tokens).
  apply mapM_result_Ok. eapply Forall_impl; [exact Htokens|].
  intros t Ht. simpl in *. unfold detokenize.
  by destruct (py_index_Ok (index_to_word self) t Ht) as (w & -> & _).
Qed.

(** On a well-formed configuration a call of the callback on an epoch that
    is not skipped completes normally: it prints the prompt followed by
    [max_tokens + 1] new tokens, each a valid id below [V], changes no
    list that existed before, and consumes one uniform draw per new token. *)
Lemma on_epoch_end_Done (fuel : nat) (epoch : Z) (st : state) (prompt : list Z) :
  heap st !! start_tokens self = Some prompt →
  (Z.to_nat (max_tokens self + 1) < fuel)%nat →
  print_every self ≠ 0 →
  (epoch + 1) `mod` print_every self = 0 →
  V ≤ len (index_to_word self) →
  Forall (λ t, - len (index_to_word self) ≤ t < len (index_to_word self)) prompt →
  ∃ st' new words,
    on_epoch_end predict exp uniform fuel self epoch st = Done () st'
    ∧ len new = Z.max 0 (max_tokens self + 1)
    ∧ Forall (λ t, 0 ≤ t < V) new
    ∧ mapM (detokenize self) (prompt ++ new) = Ok words
    ∧ stdout st' = stdout st ++ [generated_text (join " " words)]
    ∧ untouched st st'
    ∧ draws st' = (draws st + length new)%nat.
Proof.
  intros Hprompt Hfuel Hevery Hepoch HV Hvalid.
  cut (wp (on_epoch_end predict exp uniform fuel self epoch)
          (λ _ st', ∃ new words,
             len new = Z.max 0 (max_tokens self + 1)
             ∧ Forall (λ t, 0 ≤ t < V) new
             ∧ mapM (detokenize self) (prompt ++ new) = Ok words
             ∧ stdout st' = stdout st ++ [generated_text (join " " words)]
             ∧ untouched st st'
             ∧ draws st' = (draws st + length new)%nat)
          (λ _ _, False) st).
  { unfold wp. destruct (on_epoch_end _ _ _ _ _ _ st) as [[] st'| |]; [|done..].
    intros (new & words & H). by exists st', new, words. }
  unfold on_epoch_end, working_copy.
  apply wp_bind, wp_bind, wp_read. rewrite Hprompt.
  apply wp_alloc. intros sl Hsl.
  set (st1 := {| heap := <[sl := prompt]> (heap st) |}).
  assert (untouched st st1) as H1 by (by eapply untouched_insert_fresh).
  apply wp_bind, wp_lift. unfold py_mod.
  rewrite bool_decide_false by done.
  rewrite bool_decide_false by (intros Hr; by apply Hr).
  apply wp_bind, wp_alloc. intros gl Hgl.
  set (st2 := {| heap := <[gl := []]> (heap st1) |}).
  assert (sl ≠ gl) as Hne.
  { intros <-. unfold st1 in Hgl; cbn [heap] in Hgl.
    by rewrite lookup_insert_eq in Hgl. }
  assert (untouched st st2) as H2.
  { intros l Hl. unfold st2; cbn [heap].
    rewrite lookup_insert_ne; [by apply H1|].
    intros <-. rewrite <- (H1 gl Hl) in Hl. rewrite Hgl in Hl. by destruct Hl. }
  assert (heap st2 !! sl = Some prompt) as Hsl2.
  { unfold st2, st1; cbn [heap]. by rewrite lookup_insert_ne, lookup_insert_eq. }
  assert (heap st2 !! gl = Some []) as Hgl2 by (by apply lookup_insert_eq).
  apply wp_bind.
  eapply wp_mono;
    [apply (generate_Done sl gl fuel Hne st2 prompt []);
     [done|done|unfold len; simpl length; lia]| |done]; cbn beta.
  intros _ st' (new & (_ & Hg & Hframe & Hout) & Hcount & Hnew & Hdraws).
  assert (untouched st st') as Hun.
  { intros l Hl. rewrite <- (H2 l Hl). apply Hframe.
    - intros ->. rewrite Hsl in Hl. by destruct Hl.
    - intros ->. rewrite <- (H1 gl Hl) in Hl. rewrite Hgl in Hl. by destruct Hl. }
  apply wp_bind, wp_read.
  rewrite (Hun (start_tokens self)), Hprompt by (by rewrite Hprompt).
  apply wp_bind, wp_read. rewrite Hg. simpl.
  destruct (detokenize_all (prompt ++ new)) as [words Hwords].
  { apply Forall_app. split; [done|].
    eapply Forall_impl; [exact Hnew|]. intros t Ht. simpl in *. unfold len in *. lia. }
  apply wp_bind, wp_lift. rewrite Hwords.
  apply wp_print. exists new, words.
  split; [simpl in Hcount; unfold len in *; simpl in Hcount; lia|].
  split; [done|]. split; [done|]. split; [cbn [stdout]; by rewrite Hout|].
  split; [done|]. cbn [draws]. by rewrite Hdraws.
Qed.

End Total.
(** ** The model is only queried on windows of [maxlen] tokens *)

Section WindowOnly.
Import Sampler.

Variables predict predict' : list Z → list (list Q).
Variable exp : Q → Q.
Variable uniform : nat → Q.
Hypothesis same_on_windows :
  ∀ x, length x = Z.to_nat maxlen → predict x = predict' x.

(** Two models that agree on every input of [maxlen] tokens cannot be told
    apart by the generation loop. *)
Lemma generate_ext (fuel : nat) (self : TextGenerator) (sl gl : loc) :
  ∀ (num : Z) (st : state),
    generate predict exp uniform fuel self sl gl num st
    = generate predict' exp uniform fuel self sl gl num st.
Proof.
  induction fuel as [|fuel IH]; intros num st; simpl; [done|].
  case_bool_decide; [|done].
  unfold mbind, M_bind.
  destruct (read sl st) as [tokens st1| |]; [|done..].
  pose proof (length_model_input tokens) as Hlen.
  destruct (model_input tokens) as [x sample_index]. simpl in Hlen.
  rewrite (same_on_windows x Hlen).
  destruct (lift _ st1) as [row st2| |]; [|done..].
  destruct (sample_from _ _ _ _ st2) as [tok st3| |]; [|done..].
  destruct (append gl tok st3) as [[] st4| |]; [|done..].
  destruct (append sl tok st4) as [[] st5| |]; [|done..].
  destruct (read gl st5) as [generated st6| |]; [|done..].
  apply IH.
Qed.

Lemma on_epoch_end_ext (fuel : nat) (self : TextGenerator) (epoch : Z) (st : state) :
  on_epoch_end predict exp uniform fuel self epoch st
  = on_epoch_end predict' exp uniform fuel self epoch st.
Proof.
  unfold on_epoch_end, mbind, M_bind.
  destruct (working_copy self st) as [sl st1| |]; [|done..].
  destruct (lift _ st1) as [r st2| |]; [|done..].
  case_bool_decide; [done|].
  destruct (alloc [] st2) as [gl st3| |]; [|done..].
  by rewrite generate_ext.
Qed.

Lemma on_epoch_end_same (fuel : nat) (self : TextGenerator) (epoch : Z) (st : state) :
  on_epoch_end predict exp uniform fuel self epoch st
  = on_epoch_end predict' exp uniform fuel self epoch st.
Proof.
  unfold on_epoch_end, mbind, M_bind.
  destruct (working_copy self st) as [sl st1| |]; [|done..].
  destruct (lift _ st1) as [r st2| |]; [|done..].
  case_bool_decide; [done|].
  destruct (alloc [] st2) as [gl st3| |]; [|done..].
  by rewrite generate_ext.
Qed.

(** C10. Whatever the length of the working sequence, shorter than, equal to
    or longer than [maxlen], the window computed from it has exactly
    [maxlen = 80] tokens, and these windows are all that the generation loop
    hands to the model: started with any counter in any state, the loop
    gives the same outcome with two models that agree on every input of 80
    tokens, however they differ on inputs of other lengths, and so do the
    calls of the callback over the epochs of a training run. *)
Theorem generation_windows_have_length_maxlen (fuel : nat) (self : TextGenerator)
    (sl gl : loc) (num : Z) (epochs : list Z) (st : state) :
  Z.to_nat maxlen = 80%nat
  ∧ (∀ tokens, length (model_input tokens).1 = Z.to_nat maxlen)
  ∧ generate predict exp uniform fuel self sl gl num st
    = generate predict' exp uniform fuel self sl gl num st
  ∧ on_epochs predict exp uniform fuel self epochs st
    = on_epochs predict' exp uniform fuel self epochs st.
Proof.
  split; [reflexivity|]. split; [apply length_model_input|].
  split; [apply generate_ext|].
  revert st. induction epochs as [|epoch epochs IH]; intros st; simpl; [done|].
  unfold mbind, M_bind. rewrite on_epoch_end_same.
  destruct (on_epoch_end predict' exp uniform fuel self epoch st) as [[] st'| |];
    [apply IH|done..].
Qed.

End WindowOnly.

Lemma generation_windows_have_length_maxlen_witness :
  Z.to_nat Sampler.maxlen = 80%nat
  ∧ (∀ tokens, length (Sampler.model_input tokens).1 = Z.to_nat Sampler.maxlen)
  ∧ Sampler.generate Toy.predict Q_exp Toy.uniform 10 (Toy.generator 3 10)
      Toy.prompt Toy.prompt 0 Toy.initial
    = Sampler.generate
        (λ x, if bool_decide (length x = 80%nat) then Toy.predict x else [])
        Q_exp Toy.uniform 10 (Toy.generator 3 10) Toy.prompt Toy.prompt 0 Toy.initial
  ∧ Sampler.on_epochs Toy.predict Q_exp Toy.uniform 10 (Toy.generator 3 10)
      [0; 1] Toy.initial
    = Sampler.on_epochs
        (λ x, if bool_decide (length x = 80%nat) then Toy.predict x else [])
        Q_exp Toy.uniform 10 (Toy.generator 3 10) [0; 1] Toy.initial.
Proof.
  apply (generation_windows_have_length_maxlen Toy.predict
           (λ x, if bool_decide (length x = 80%nat) then Toy.predict x else [])
           Q_exp Toy.uniform).
  intros x Hx. by rewrite bool_decide_true.
Defined.

(** ** The small configuration is well formed *)

Lemma toy_uniform_range (n : nat) : (0 <= Toy.uniform n < 1)%Q.
Proof.
  unfold Toy.uniform, Qle, Qlt. simpl.
  pose proof (Nat.mod_upper_bound n 5). lia.
Qed.

Lemma toy_predict_shape (x : list Z) :
  length x = Z.to_nat Sampler.maxlen →
  length (Toy.predict x) = Z.to_nat Sampler.maxlen
  ∧ Forall (λ row, len row = 16) (Toy.predict x).
Proof.
  intros Hx. unfold Toy.predict. rewrite length_fmap. split; [done|].
  apply Forall_fmap, Forall_forall. intros t _. unfold compose, len.
  by rewrite length_fmap, length_arange.
Qed.

Lemma on_epoch_end_Done_witness :
  ∃ st' new words,
    Toy.run 10 3 10 = Done () st'
    ∧ len new = Z.max 0 (3 + 1)
    ∧ Forall (λ t, 0 ≤ t < 16) new
    ∧ mapM (Sampler.detokenize (Toy.generator 3 10)) ([5; 12; 9] ++ new) = Ok words
    ∧ stdout st' = stdout Toy.initial ++ [Sampler.generated_text (join " " words)]
    ∧ untouched Toy.initial st'
    ∧ draws st' = (draws Toy.initial + length new)%nat.
Proof.
  apply (on_epoch_end_Done Toy.predict Q_exp Toy.uniform (Toy.generator 3 10) 16
           Q_exp_pos toy_uniform_range toy_predict_shape
           ltac:(vm_compute; split; [reflexivity|discriminate])
           10 0 Toy.initial [5; 12; 9]).
  - reflexivity.
  - vm_compute. lia.
  - discriminate.
  - reflexivity.
  - vm_compute. discriminate.
  - repeat constructor; done.
Defined.
(** ** Shapes through the block *)

Section ShapeFacts.
Import Mask Block.
Context {F : Type} `{Scalar F}.

Lemma has_shape_lookup {A} (B n D : nat) (X : list (list (list A))) :
  has_shape B n D X ↔
  length X = B ∧ ∀ b x, X !! b = Some x →
    length x = n ∧ ∀ i row, x !! i = Some row → length row = D.
Proof.
  unfold has_shape. rewrite Forall_lookup.
  split; intros [HB HX]; (split; [done|]); intros b x Hx;
    destruct (HX b x Hx) as [Hn Hrows]; (split; [done|]);
    by apply Forall_lookup.
Qed.

Lemma length_vadd (u v : list F) (D : nat) :
  length u = D → length v = D → length (vadd u v) = D.
Proof. intros Hu Hv. unfold vadd. rewrite length_zip_with. lia. Qed.

Lemma length_layer_norm (l : LayerNormalization F) (x : list F) (D : nat) :
  length (gamma l) = D → length (beta l) = D → length x = D →
  length (layer_norm l x) = D.
Proof.
  intros Hg Hb Hx. unfold layer_norm, vadd.
  rewrite !length_zip_with, !length_fmap. lia.
Qed.

Lemma has_shape_dropout (l : Dropout F) (training : bool)
    (keep : nat → nat → nat → bool) (B n D : nat) (X : list (list (list F))) :
  has_shape B n D X → has_shape B n D (dropout l training keep X).
Proof.
  intros HX. unfold dropout. destruct (dropout_enabled l training); [|done].
  apply has_shape_lookup in HX as [HB HX]. apply has_shape_lookup.
  split; [by rewrite length_imap|].
  intros b x Hx. rewrite list_lookup_imap in Hx.
  destruct (X !! b) as [x0|] eqn:Hx0; [|done]. simpl in Hx. injection Hx as <-.
  destruct (HX b x0 Hx0) as [Hn Hrows].
  split; [by rewrite length_imap|].
  intros i row Hrow. rewrite list_lookup_imap in Hrow.
  destruct (x0 !! i) as [row0|] eqn:Hrow0; [|done]. simpl in Hrow.
  injection Hrow as <-. rewrite length_imap. by eapply Hrows.
Qed.

Lemma has_shape_rowwise (f : list F → list F) (B n D D' : nat)
    (X : list (list (list F))) :
  (∀ row, length row = D → length (f row) = D') →
  has_shape B n D X → has_shape B n D' (rowwise f X).
Proof.
  intros Hf HX. apply has_shape_lookup in HX as [HB HX]. apply has_shape_lookup.
  unfold rowwise. split; [by rewrite length_fmap|].
  intros b x Hx. rewrite list_lookup_fmap in Hx.
  destruct (X !! b) as [x0|] eqn:Hx0; [|done]. simpl in Hx. injection Hx as <-.
  destruct (HX b x0 Hx0) as [Hn Hrows].
  split; [by rewrite length_fmap|].
  intros i row Hrow. rewrite list_lookup_fmap in Hrow.
  destruct (x0 !! i) as [row0|] eqn:Hrow0; [|done]. simpl in Hrow.
  injection Hrow as <-. apply Hf. by eapply Hrows.
Qed.

Lemma has_shape_add_batch (B n D : nat) (X Y : list (list (list F))) :
  has_shape B n D X → has_shape B n D Y → has_shape B n D (add_batch X Y).
Proof.
  intros HX HY.
  apply has_shape_lookup in HX as [HBX HX]. apply has_shape_lookup in HY as [HBY HY].
  apply has_shape_lookup. unfold add_batch.
  split; [rewrite length_zip_with; lia|].
  intros b z Hz. rewrite lookup_zip_with in Hz.
  destruct (X !! b) as [x|] eqn:Hx; [|done]. simpl in Hz.
  destruct (Y !! b) as [y|] eqn:Hy; [|done]. simpl in Hz. injection Hz as <-.
  destruct (HX b x Hx) as [Hnx Hrx]. destruct (HY b y Hy) as [Hny Hry].
  split; [rewrite length_zip_with; lia|].
  intros i row Hrow. rewrite lookup_zip_with in Hrow.
  destruct (x !! i) as [u|] eqn:Hu; [|done]. simpl in Hrow.
  destruct (y !! i) as [v|] eqn:Hv; [|done]. simpl in Hrow. injection Hrow as <-.
  apply length_vadd; [by eapply Hrx|by eapply Hry].
Qed.

(** The rows of a row-wise sum of matrices of width [D] have width [D]. *)
Lemma width_foldr_zip_with_vadd (ms : list (list (list F))) (init : list (list F))
    (D : nat) :
  Forall (Forall (λ row, length row = D)) ms →
  Forall (λ row, length row = D) init →
  Forall (λ row, length row = D) (foldr (zip_with vadd) init ms).
Proof.
  intros Hms Hinit. induction Hms as [|m ms Hm _ IH]; simpl; [done|].
  apply Forall_lookup. intros i row Hrow. rewrite lookup_zip_with in Hrow.
  destruct (m !! i) as [u|] eqn:Hu; [|done]. simpl in Hrow.
  destruct (foldr _ _ _ !! i) as [v|] eqn:Hv; [|done]. simpl in Hrow.
  injection Hrow as <-. apply length_vadd.
  - by eapply Forall_lookup_1 in Hm.
  - by eapply Forall_lookup_1 in IH.
Qed.

Lemma width_attention (l : MultiHeadAttention F) (x : list (list F))
    (mask : list (list bool)) (D : nat) :
  Forall (λ h, length (output_kernel h) = D) (heads l) →
  length (output_bias l) = D →
  Forall (λ row, length row = D) (attention l x x mask).
Proof.
  intros Hheads Hbias. unfold attention. apply width_foldr_zip_with_vadd.
  - apply Forall_fmap. eapply Forall_impl; [exact Hheads|].
    intros h Hh. simpl. apply Forall_fmap, Forall_forall. intros c _. simpl.
    by rewrite length_fmap.
  - by apply Forall_replicate.
Qed.

Lemma has_shape_attention_batch (l : MultiHeadAttention F) (B n D D' : nat)
    (X : list (list (list F))) :
  Forall (λ h, length (output_kernel h) = D) (heads l) →
  length (output_bias l) = D →
  has_shape B n D' X →
  has_shape B n D
    (attention_batch l X X
       (causal_attention_mask (length X) (length (default [] (head X)))
          (length (default [] (head X))))).
Proof.
  intros Hheads Hbias HX. apply has_shape_lookup in HX as [HB HX].
  apply has_shape_lookup. unfold attention_batch, causal_attention_mask.
  split.
  { rewrite !length_zip_with, length_tile0_singleton. lia. }
  intros b y Hy. rewrite !lookup_zip_with in Hy.
  destruct (X !! b) as [x|] eqn:Hx; [|done]. simpl in Hy.
  rewrite lookup_tile0_singleton in Hy by (by eapply lookup_lt_Some).
  simpl in Hy. injection Hy as <-.
  destruct (HX b x Hx) as [Hn _].
  assert (length (default [] (head X)) = n) as ->.
  { destruct X as [|x0 X0]; [done|]. simpl. by destruct (HX 0%nat x0 eq_refl). }
  split.
  - rewrite <- Hn at 1 2. rewrite length_attention. done.
  - intros i row Hrow.
    by eapply Forall_lookup_1 in Hrow; [|by apply width_attention].
Qed.

(** The block maps a batch of [B] examples of [n] rows of [D] features to a
    batch of the same shape, in training mode as well as in inference mode. *)
Lemma has_shape_call (self : TransformerBlock F) (training : bool)
    (rng : nat → nat → nat → nat → bool) (B n D : nat)
    (X : list (list (list F))) :
  block_shaped D self →
  has_shape B n D X →
  has_shape B n D (call self training rng X).
Proof.
  intros (Hheads & Hbias & Hg1 & Hb1 & Hk & Hkb & Hg2 & Hb2) HX.
  unfold call. cbv zeta.
  assert (has_shape B n D
            (rowwise (layer_norm (layernorm1 self))
               (add_batch X
                  (dropout (dropout1 self) training (rng 0%nat)
                     (attention_batch (att self) X X
                        (causal_attention_mask (length X)
                           (length (default [] (head X)))
                           (length (default [] (head X))))))))) as Hout1.
  { apply has_shape_rowwise with (D := D); [intros row; by apply length_layer_norm|].
    apply has_shape_add_batch; [done|].
    by apply has_shape_dropout, has_shape_attention_batch with (D' := D). }
  apply has_shape_rowwise with (D := D); [intros row; by apply length_layer_norm|].
  apply has_shape_add_batch; [done|].
  apply has_shape_dropout.
  eapply has_shape_rowwise; [|exact Hout1].
  intros row _. unfold ffn. rewrite length_dense. lia.
Qed.

End ShapeFacts.
(** ** The model: embedding, block and head together *)

Section ModelFacts.
Import Mask Block.
Context {F : Type} `{Scalar F}.

Lemma embedding_call_Ok (self : Embedding.TokenAndPositionEmbedding F) (x : list Z) :
  (length x ≤ length (Embedding.pos_emb self))%nat →
  valid_ids self x →
  Embedding.call self x = Ok (embedded self x).
Proof.
  intros HL Hx. unfold Embedding.call. cbv zeta.
  rewrite (embedding_Ok (Embedding.pos_emb self)); last first.
  { apply Forall_forall. intros id Hid.
    apply list_elem_of_lookup in Hid as [i Hi].
    assert (i < length x)%nat.
    { pose proof (lookup_lt_Some _ _ _ Hi) as Hlt.
      by rewrite length_arange in Hlt. }
    rewrite lookup_arange in Hi by done. simplify_eq. lia. }
  simpl. by rewrite embedding_Ok.
Qed.

Lemma embedding_call_batch_Ok (self : Embedding.TokenAndPositionEmbedding F)
    (X : list (list Z)) (n : nat) :
  (n ≤ length (Embedding.pos_emb self))%nat →
  Forall (λ x, length x = n) X →
  Forall (valid_ids self) X →
  Embedding.call_batch self X = Ok (embedded self <$> X).
Proof.
  intros HL Hn HX. unfold Embedding.call_batch. apply mapM_result_Ok.
  apply Forall_lookup. intros b x Hx.
  apply embedding_call_Ok.
  - eapply Forall_lookup_1 in Hn; [|done]. simpl in Hn. lia.
  - by eapply Forall_lookup_1 in HX.
Qed.

Lemma length_embedded (self : Embedding.TokenAndPositionEmbedding F) (x : list Z) :
  length (embedded self x) = length x.
Proof.
  unfold embedded. rewrite length_zip_with, !length_fmap, length_arange. lia.
Qed.

(** Two sequences of the same length that hold the same id at a position
    have the same embedding row there. *)
Lemma lookup_embedded_agree (self : Embedding.TokenAndPositionEmbedding F)
    (x x' : list Z) (j : nat) :
  length x = length x' → x !! j = x' !! j →
  embedded self x !! j = embedded self x' !! j.
Proof.
  intros Hlen Hj. unfold embedded.
  by rewrite !lookup_zip_with, !list_lookup_fmap, Hj, Hlen.
Qed.

(** With both dropout layers off, row [i] of the block's output on an
    example depends on the rows [<= i] of that example only. *)
Lemma call_row_causal (self : TransformerBlock F) (training : bool)
    (rng rng' : nat → nat → nat → nat → bool)
    (X X' : list (list (list F))) (n i b : nat) (x x' : list (list F)) :
  (∀ a : F, fmul f0 a = f0) →
  dropout_enabled (dropout1 self) training = false →
  dropout_enabled (dropout2 self) training = false →
  Forall (λ x, length x = n) X →
  Forall (λ x, length x = n) X' →
  X !! b = Some x → X' !! b = Some x' →
  (i < n)%nat →
  (∀ j, (j ≤ i)%nat → x !! j = x' !! j) →
  (y ← call self training rng X !! b; y !! i)
  = (y ← call self training rng' X' !! b; y !! i).
Proof.
  intros Hmul H1 H2 HX HX' Hx Hx' Hi Hagree.
  assert (length x = n) as Hn by (eapply Forall_lookup_1 in HX; eauto).
  assert (length x' = n) as Hn' by (eapply Forall_lookup_1 in HX'; eauto).
  rewrite (call_lookup self training rng X n b x) by done.
  rewrite (call_lookup self training rng' X' n b x') by done.
  simpl. rewrite !lookup_call_example, Hn, Hn'.
  rewrite <- (Hagree i) by done.
  by rewrite (attention_row_causal Hmul x x' n i Hn Hn' Hi Hagree).
Qed.

Lemma lookup_rowwise (f : list F → list F) (Y : list (list (list F))) (b i : nat) :
  (y ← rowwise f Y !! b; y !! i) = f <$> (y ← Y !! b; y !! i).
Proof.
  unfold rowwise. rewrite list_lookup_fmap.
  destruct (Y !! b) as [y|]; [|done]. simpl. by rewrite list_lookup_fmap.
Qed.

Lemma model_call_Ok (self : Model.MiniatureGPT F) (training : bool)
    (rng : nat → nat → nat → nat → bool) (X : list (list Z)) :
  (Model.maxlen self ≤ length (Embedding.pos_emb (Model.embedding_layer self)))%nat →
  Forall (λ x, length x = Model.maxlen self) X →
  Forall (valid_ids (Model.embedding_layer self)) X →
  Model.call self training rng X
  = let hidden := call (Model.transformer_block self) training rng
                    (embedded (Model.embedding_layer self) <$> X) in
    Ok (rowwise (dense (Model.lm_head self) id) hidden, hidden).
Proof.
  intros HL Hn HX. unfold Model.call.
  by rewrite (embedding_call_batch_Ok _ X (Model.maxlen self)).
Qed.

End ModelFacts.
(** ** Properties of the block and of the model *)

Section ModelProperties.
Import Mask Block.
Context {F : Type} `{Scalar F}.

(** The block is shape preserving: on a batch of [B] examples of [n] rows of
    [D] features it returns [B] examples of [n] rows of [D] features, in
    training mode and in inference mode, provided its output projection, its
    second dense layer and its two normalisations have width [D]. *)
Theorem block_preserves_shape (self : TransformerBlock F) (training : bool)
    (rng : nat → nat → nat → nat → bool) (B n D : nat)
    (X : list (list (list F))) :
  block_shaped D self →
  length X = B →
  Forall (λ x, length x = n ∧ Forall (λ row, length row = D) x) X →
  length (call self training rng X) = B
  ∧ Forall (λ y, length y = n ∧ Forall (λ row, length row = D) y)
           (call self training rng X).
Proof.
  intros Hshaped HB HX.
  by apply (has_shape_call self training rng B n D X Hshaped).
Qed.

(** With both dropout layers off, the examples of a batch do not influence
    one another: the output for the example at index [b] is the output the
    block gives for that example alone. *)
Theorem block_examples_independent (self : TransformerBlock F) (training : bool)
    (rng rng' : nat → nat → nat → nat → bool)
    (X : list (list (list F))) (n b : nat) (x : list (list F)) :
  dropout_enabled (dropout1 self) training = false →
  dropout_enabled (dropout2 self) training = false →
  Forall (λ x, length x = n) X →
  X !! b = Some x →
  call self training rng X !! b = call self training rng' [x] !! 0%nat.
Proof.
  intros H1 H2 HX Hx.
  assert (length x = n) as Hn by (eapply Forall_lookup_1 in HX; eauto).
  rewrite (call_lookup self training rng X n b x) by done.
  rewrite (call_lookup self training rng' [x] n 0 x); try done.
  by repeat constructor.
Qed.

(** The logits and the hidden state at position [i] do not depend on the
    tokens after position [i]: for two batches of valid token sequences of
    [maxlen] tokens that agree up to position [i], the model succeeds on both
    and row [i] of the logits, and of the hidden state, is the same, for every
    example.  Both dropout layers are off and [0 * a = 0] for scalars. *)
Theorem logits_ignore_later_tokens (self : Model.MiniatureGPT F) (training : bool)
    (rng rng' : nat → nat → nat → nat → bool)
    (X X' : list (list Z)) (i : nat) :
  let n := Model.maxlen self in
  (∀ a : F, fmul f0 a = f0) →
  dropout_enabled (dropout1 (Model.transformer_block self)) training = false →
  dropout_enabled (dropout2 (Model.transformer_block self)) training = false →
  (n ≤ length (Embedding.pos_emb (Model.embedding_layer self)))%nat →
  length X = length X' →
  Forall (λ x, length x = n) X → Forall (λ x, length x = n) X' →
  Forall (valid_ids (Model.embedding_layer self)) X →
  Forall (valid_ids (Model.embedding_layer self)) X' →
  (i < n)%nat →
  (∀ b x x' j, X !! b = Some x → X' !! b = Some x' → (j ≤ i)%nat →
     x !! j = x' !! j) →
  ∃ logits hidden logits' hidden',
    Model.call self training rng X = Ok (logits, hidden)
    ∧ Model.call self training rng' X' = Ok (logits', hidden')
    ∧ ∀ b, (b < length X)%nat →
        ∃ logits_row hidden_row,
          (y ← logits !! b; y !! i) = Some logits_row
          ∧ (y ← logits' !! b; y !! i) = Some logits_row
          ∧ (y ← hidden !! b; y !! i) = Some hidden_row
          ∧ (y ← hidden' !! b; y !! i) = Some hidden_row.
Proof.
  intros n Hmul H1 H2 HL Hlen Hn Hn' Hvalid Hvalid' Hi Hagree.
  rewrite (model_call_Ok self training rng X) by done.
  rewrite (model_call_Ok self training rng' X') by done.
  cbv zeta. eexists _, _, _, _. split; [done|]. split; [done|].
  intros b Hb.
  destruct (lookup_lt_is_Some_2 X b) as [x Hx]; [done|].
  destruct (lookup_lt_is_Some_2 X' b) as [x' Hx']; [lia|].
  assert (length x = n) as Hxn by (eapply Forall_lookup_1 in Hn; eauto).
  assert (length x' = n) as Hxn' by (eapply Forall_lookup_1 in Hn'; eauto).
  set (E := embedded (Model.embedding_layer self)).
  assert (Forall (λ e, length e = n) (E <$> X)) as HE.
  { apply Forall_fmap. eapply Forall_impl; [exact Hn|].
    intros y Hy. simpl. unfold E. by rewrite length_embedded. }
  assert (Forall (λ e, length e = n) (E <$> X')) as HE'.
  { apply Forall_fmap. eapply Forall_impl; [exact Hn'|].
    intros y Hy. simpl. unfold E. by rewrite length_embedded. }
  assert ((y ← call (Model.transformer_block self) training rng (E <$> X) !! b; y !! i)
          = (y ← call (Model.transformer_block self) training rng' (E <$> X') !! b; y !! i))
    as Hrows.
  { apply (call_row_causal _ training rng rng' _ _ n i b (E x) (E x')); try done.
    - by rewrite list_lookup_fmap, Hx.
    - by rewrite list_lookup_fmap, Hx'.
    - intros j Hj. apply lookup_embedded_agree; [lia|]. by eapply Hagree. }
  assert (∃ hidden_row,
            (y ← call (Model.transformer_block self) training rng (E <$> X) !! b; y !! i)
            = Some hidden_row) as [hidden_row Hrow].
  { rewrite (call_lookup _ training rng (E <$> X) n b (E x));
      [|done|done|done|by rewrite list_lookup_fmap, Hx].
    simpl. apply lookup_lt_is_Some_2.
    rewrite length_call_example. unfold E. rewrite length_embedded. lia. }
  exists (dense (Model.lm_head self) id hidden_row), hidden_row.
  rewrite !lookup_rowwise, <- Hrows, Hrow. done.
Qed.

(** In inference mode the logits of one window are the head applied to
    every row of the block's output on the embedded window. *)
Lemma predict_Ok (self : Model.MiniatureGPT F) (x : list Z) :
  length x = Model.maxlen self →
  (length x ≤ length (Embedding.pos_emb (Model.embedding_layer self)))%nat →
  valid_ids (Model.embedding_layer self) x →
  Model.predict self x
  = Ok (dense (Model.lm_head self) id
          <$> call_example (Model.transformer_block self)
                (embedded (Model.embedding_layer self) x)).
Proof.
  intros Hmax HL Hx. unfold Model.predict.
  rewrite (model_call_Ok self false _ [x]); [|lia|by repeat constructor..].
  cbv zeta. unfold mbind, result_bind. cbv beta iota.
  unfold rowwise. rewrite list_lookup_fmap.
  rewrite (call_lookup _ false _ _ (length x) 0 (embedded (Model.embedding_layer self) x));
    [done|done|done| |done].
  repeat constructor. apply length_embedded.
Qed.

(** The row the sampler reads does not depend on the padding: for a working
    sequence of 1 to 80 tokens, the window the sampler builds and any other
    window of 80 valid ids that starts with the same tokens give the same
    logits at [sample_index]. *)
Theorem sampled_row_ignores_padding (self : Model.MiniatureGPT F)
    (tokens w : list Z) :
  (∀ a : F, fmul f0 a = f0) →
  0 < len tokens ≤ Sampler.maxlen →
  length w = Z.to_nat Sampler.maxlen →
  take (length tokens) w = tokens →
  valid_ids (Model.embedding_layer self) w →
  (0 < length (Embedding.token_emb (Model.embedding_layer self)))%nat →
  Model.maxlen self = Z.to_nat Sampler.maxlen →
  (Model.maxlen self ≤ length (Embedding.pos_emb (Model.embedding_layer self)))%nat →
  ∃ y y' row,
    Model.predict self (Sampler.model_input tokens).1 = Ok y
    ∧ Model.predict self w = Ok y'
    ∧ py_index y (Sampler.model_input tokens).2 = Ok row
    ∧ py_index y' (Sampler.model_input tokens).2 = Ok row.
Proof.
  intros Hmul Hlen Hw Htake Hvalid Hvocab Hmax HL. rewrite Hmax in HL.
  set (win := (Sampler.model_input tokens).1).
  assert (length win = Z.to_nat Sampler.maxlen) as Hwin by apply length_model_input.
  assert ((Sampler.model_input tokens).2 = Z.of_nat (length tokens - 1)) as Hidx.
  { rewrite model_input_sample_index. unfold len in *. lia. }
  assert (valid_ids (Model.embedding_layer self) tokens) as Htokens.
  { rewrite <- Htake. by apply Forall_take. }
  assert (take (length tokens) win = tokens ∧ valid_ids (Model.embedding_layer self) win)
    as [Htakewin Hvalidwin].
  { unfold win. destruct (decide (len tokens < Sampler.maxlen)) as [Hlt|Hge].
    - rewrite model_input_shorter by done. simpl. split.
      + by rewrite take_app_length.
      + apply Forall_app. split; [done|]. apply Forall_replicate. lia.
    - rewrite model_input_exact by lia. simpl. split; [|done].
      by rewrite firstn_all. }
  rewrite Hidx.
  rewrite (predict_Ok self win), (predict_Ok self w) by (done || lia).
  set (i := (length tokens - 1)%nat).
  assert (i < Z.to_nat Sampler.maxlen)%nat as Hi by (unfold i, len in *; lia).
  assert (∀ j, (j ≤ i)%nat → win !! j = w !! j) as Hagree.
  { intros j Hj.
    rewrite <- (lookup_take_lt win (length tokens) j) by (unfold i in Hj; unfold len in *; lia).
    rewrite <- (lookup_take_lt w (length tokens) j) by (unfold i in Hj; unfold len in *; lia).
    by rewrite Htakewin, Htake. }
  set (E := embedded (Model.embedding_layer self)).
  assert (call_example (Model.transformer_block self) (E win) !! i
          = call_example (Model.transformer_block self) (E w) !! i) as Hrows.
  { rewrite !lookup_call_example. unfold E. rewrite !length_embedded, Hwin, Hw.
    rewrite (lookup_embedded_agree _ win w i) by (by (rewrite Hwin, Hw) || apply Hagree).
    rewrite (attention_row_causal Hmul (E win) (E w) (Z.to_nat Sampler.maxlen) i);
      [done|by unfold E; rewrite length_embedded..|done|].
    intros j Hj. apply lookup_embedded_agree; [by rewrite Hwin, Hw|by apply Hagree]. }
  destruct (lookup_lt_is_Some_2 (call_example (Model.transformer_block self) (E win)) i)
    as [hidden_row Hrow].
  { rewrite length_call_example. unfold E. rewrite length_embedded. lia. }
  eexists _, _, (dense (Model.lm_head self) id hidden_row).
  split; [done|]. split; [done|].
  split; apply py_index_nat; rewrite list_lookup_fmap.
  - by rewrite Hrow.
  - by rewrite <- Hrows, Hrow.
Qed.

Lemma has_shape_embedded (self : Embedding.TokenAndPositionEmbedding F)
    (X : list (list Z)) (B n D : nat) :
  Forall (λ row, length row = D) (Embedding.token_emb self) →
  Forall (λ row, length row = D) (Embedding.pos_emb self) →
  (n ≤ length (Embedding.pos_emb self))%nat →
  length X = B →
  Forall (λ x, length x = n) X →
  Forall (valid_ids self) X →
  has_shape B n D (embedded self <$> X).
Proof.
  intros Htok Hpos HL HB Hn HX. apply has_shape_lookup.
  split; [by rewrite length_fmap|].
  intros b e He. rewrite list_lookup_fmap in He.
  destruct (X !! b) as [x|] eqn:Hx; [|done]. simpl in He. injection He as <-.
  assert (length x = n) as Hxn by (eapply Forall_lookup_1 in Hn; eauto).
  assert (valid_ids self x) as Hvalid by (eapply Forall_lookup_1 in HX; eauto).
  split; [by rewrite length_embedded|].
  intros i row Hrow. unfold embedded in Hrow.
  rewrite lookup_zip_with, !list_lookup_fmap in Hrow.
  destruct (x !! i) as [t|] eqn:Ht; [|done]. simpl in Hrow.
  rewrite lookup_arange in Hrow by (by eapply lookup_lt_Some).
  simpl in Hrow. injection Hrow as <-. rewrite Nat2Z.id.
  eapply Forall_lookup_1 in Hvalid; [|done]. simpl in Hvalid.
  destruct (lookup_lt_is_Some_2 (Embedding.token_emb self) (Z.to_nat t)) as [tr Htr]; [lia|].
  destruct (lookup_lt_is_Some_2 (Embedding.pos_emb self) i) as [pr Hpr].
  { apply lookup_lt_Some in Ht. lia. }
  rewrite Htr, Hpr. simpl. rewrite length_zip_with.
  eapply Forall_lookup_1 in Htok; [|done]. eapply Forall_lookup_1 in Hpos; [|done].
  simpl in *. lia.
Qed.

(** On a batch of [B] valid sequences of [maxlen] tokens the model
    succeeds and returns logits of shape [(B, maxlen, V)] and a hidden state
    of shape [(B, maxlen, D)], when its weights have the shapes
    [create_model] gives them. *)
Theorem model_output_shapes (self : Model.MiniatureGPT F) (training : bool)
    (rng : nat → nat → nat → nat → bool) (X : list (list Z)) (B D V : nat) :
  let n := Model.maxlen self in
  Model.shaped D V self →
  length X = B →
  Forall (λ x, length x = n) X →
  Forall (valid_ids (Model.embedding_layer self)) X →
  ∃ logits hidden,
    Model.call self training rng X = Ok (logits, hidden)
    ∧ has_shape B n V logits
    ∧ has_shape B n D hidden.
Proof.
  intros n (HL & Htok & Hpos & Hblock & Hk & Hb) HB Hn HX.
  assert (n ≤ length (Embedding.pos_emb (Model.embedding_layer self)))%nat
    by (unfold n; lia).
  rewrite (model_call_Ok self training rng X) by done. cbv zeta.
  eexists _, _. split; [done|].
  assert (has_shape B n D
            (call (Model.transformer_block self) training rng
               (embedded (Model.embedding_layer self) <$> X))) as Hhidden.
  { apply has_shape_call; [done|]. by apply has_shape_embedded. }
  split; [|done].
  eapply has_shape_rowwise; [|exact Hhidden].
  intros row _. rewrite length_dense. lia.
Qed.

(** The callback never gives the model a window it rejects: whatever the
    length of the working sequence (empty, shorter or longer than [maxlen]),
    if its tokens are valid ids then the model accepts the window built from
    it and returns [maxlen] rows of [V] logits. *)
Theorem callback_window_is_accepted (self : Model.MiniatureGPT F)
    (tokens : list Z) (D V : nat) :
  Model.shaped D V self →
  Model.maxlen self = Z.to_nat Sampler.maxlen →
  (0 < length (Embedding.token_emb (Model.embedding_layer self)))%nat →
  valid_ids (Model.embedding_layer self) tokens →
  ∃ y, Model.predict self (Sampler.model_input tokens).1 = Ok y
       ∧ length y = Z.to_nat Sampler.maxlen
       ∧ Forall (λ row, length row = V) y.
Proof.
  intros (HL & _ & _ & _ & Hk & Hb) Hmax Hvocab Hvalid.
  set (win := (Sampler.model_input tokens).1).
  assert (length win = Z.to_nat Sampler.maxlen) as Hwin by apply length_model_input.
  assert (valid_ids (Model.embedding_layer self) win) as Hvalidwin.
  { unfold win.
    destruct (Z.lt_trichotomy (len tokens) Sampler.maxlen) as [Hlt|[Heq|Hgt]].
    - rewrite model_input_shorter by done. simpl.
      apply Forall_app. split; [done|]. apply Forall_replicate. lia.
    - by rewrite model_input_exact.
    - rewrite model_input_longer by lia. simpl. by apply Forall_take. }
  rewrite (predict_Ok self win) by (done || lia).
  eexists. split; [done|]. split.
  - by rewrite length_fmap, length_call_example, length_embedded.
  - apply Forall_fmap, Forall_forall. intros row _. simpl.
    rewrite length_dense. lia.
Qed.

End ModelProperties.
(** ** The properties on the small block and model *)

Lemma tiny_block_shaped : block_shaped 3 Tiny.block.
Proof. repeat split; repeat constructor. Qed.

Lemma block_preserves_shape_witness :
  length (Block.call Tiny.block true Tiny.keep_all [Tiny.input; Tiny.input']) = 2%nat
  ∧ Forall (λ y, length y = 3%nat ∧ Forall (λ row, length row = 3%nat) y)
           (Block.call Tiny.block true Tiny.keep_all [Tiny.input; Tiny.input']).
Proof.
  apply (block_preserves_shape Tiny.block true Tiny.keep_all 2 3 3
           [Tiny.input; Tiny.input']).
  - exact tiny_block_shaped.
  - reflexivity.
  - repeat constructor.
Defined.

Lemma block_examples_independent_witness :
  Block.call Tiny.block false Tiny.keep_all [Tiny.input; Tiny.input'] !! 1%nat
  = Block.call Tiny.block false Tiny.drop_all [Tiny.input'] !! 0%nat.
Proof.
  apply (block_examples_independent Tiny.block false Tiny.keep_all Tiny.drop_all
           [Tiny.input; Tiny.input'] 3 1 Tiny.input').
  - reflexivity.
  - reflexivity.
  - repeat constructor.
  - reflexivity.
Defined.

Lemma logits_ignore_later_tokens_witness :
  ∃ logits hidden logits' hidden',
    Model.call TinyModel.gpt false Tiny.keep_all [[3; 1; 2]] = Ok (logits, hidden)
    ∧ Model.call TinyModel.gpt false Tiny.drop_all [[3; 1; 0]] = Ok (logits', hidden')
    ∧ ∀ b, (b < 1)%nat →
        ∃ logits_row hidden_row,
          (y ← logits !! b; y !! 1%nat) = Some logits_row
          ∧ (y ← logits' !! b; y !! 1%nat) = Some logits_row
          ∧ (y ← hidden !! b; y !! 1%nat) = Some hidden_row
          ∧ (y ← hidden' !! b; y !! 1%nat) = Some hidden_row.
Proof.
  apply (logits_ignore_later_tokens TinyModel.gpt false Tiny.keep_all Tiny.drop_all
           [[3; 1; 2]] [[3; 1; 0]] 1).
  - exact Q_fmul_0_l.
  - reflexivity.
  - reflexivity.
  - simpl. lia.
  - reflexivity.
  - repeat constructor.
  - repeat constructor.
  - repeat constructor; simpl; lia.
  - repeat constructor; simpl; lia.
  - simpl. lia.
  - intros [|b] x x' j Hx Hx' Hj; [|done].
    injection Hx as <-. injection Hx' as <-.
    destruct j as [|[|j]]; [done|done|lia].
Defined.

Lemma sampled_row_ignores_padding_witness :
  ∃ y y' row,
    Model.predict TinyModel.gpt80 (Sampler.model_input [3; 1]).1 = Ok y
    ∧ Model.predict TinyModel.gpt80 ([3; 1] ++ replicate 78 2) = Ok y'
    ∧ py_index y (Sampler.model_input [3; 1]).2 = Ok row
    ∧ py_index y' (Sampler.model_input [3; 1]).2 = Ok row.
Proof.
  apply (sampled_row_ignores_padding TinyModel.gpt80 [3; 1] ([3; 1] ++ replicate 78 2)).
  - exact Q_fmul_0_l.
  - vm_compute. split; [reflexivity|discriminate].
  - reflexivity.
  - reflexivity.
  - apply Forall_app. split; [repeat constructor; simpl; lia|].
    apply Forall_replicate. simpl. lia.
  - simpl. lia.
  - reflexivity.
  - vm_compute. lia.
Defined.

Lemma model_output_shapes_witness :
  ∃ logits hidden,
    Model.call TinyModel.gpt true Tiny.keep_all [[3; 1; 2]; [0; 0; 1]]
    = Ok (logits, hidden)
    ∧ has_shape 2 3 4 logits
    ∧ has_shape 2 3 3 hidden.
Proof.
  apply (model_output_shapes TinyModel.gpt true Tiny.keep_all
           [[3; 1; 2]; [0; 0; 1]] 2 3 4).
  - split; [reflexivity|]. split; [repeat constructor|]. split; [repeat constructor|].
    split; [exact tiny_block_shaped|]. split; reflexivity.
  - reflexivity.
  - repeat constructor.
  - repeat constructor; simpl; lia.
Defined.

Lemma callback_window_is_accepted_witness :
  ∃ y, Model.predict TinyModel.gpt80 (Sampler.model_input (replicate 85 2)).1 = Ok y
       ∧ length y = Z.to_nat Sampler.maxlen
       ∧ Forall (λ row, length row = 4%nat) y.
Proof.
  apply (callback_window_is_accepted TinyModel.gpt80 (replicate 85 2) 3 4).
  - split; [reflexivity|]. split; [repeat constructor|].
    split; [repeat constructor|]. split; [exact tiny_block_shaped|].
    split; reflexivity.
  - reflexivity.
  - simpl. lia.
  - apply Forall_replicate. simpl. lia.
Defined.

(** The padding does reach the rows after [sample_index]: the same two
    windows give different logits at the last position. *)
Example later_rows_see_the_padding :
  Model.predict TinyModel.gpt [3; 1; 0] ≫= (λ y, py_index y 2)
  ≠ Model.predict TinyModel.gpt [3; 1; 2] ≫= (λ y, py_index y 2).
Proof. vm_compute. discriminate. Qed.
(** ** Text standardisation *)

Section StandardizationFacts.
Import Data.

Lemma chars_app (s t : string) : chars (s +:+ t) = chars s ++ chars t.
Proof. induction s as [|c s IH]; simpl; [done|]. by rewrite IH. Qed.

Lemma to_lower_not_upper (c : Ascii.ascii) : is_upper (to_lower c) = false.
Proof. destruct c as [[] [] [] [] [] [] [] []]; reflexivity. Qed.

Lemma to_lower_id (c : Ascii.ascii) : is_upper c = false → to_lower c = c.
Proof. intros Hc. unfold to_lower. by rewrite Hc. Qed.

(** The pattern is well formed, and its class is the punctuation without
    the backslash: in the class, the backslash of the punctuation is read as
    the escape of the closing bracket that follows it. *)
Lemma punctuation_class_ranges :
  punctuation_class
  = Some (((λ n, (n, n)) <$> seq 33 11) ++ [(44, 46)%nat]
          ++ ((λ n, (n, n)) <$> [47; 58; 59; 60; 61; 62; 63; 64; 91; 93; 94; 95;
                                 96; 123; 124; 125; 126]%nat)).
Proof. reflexivity. Qed.

Lemma in_class_spec (c : Ascii.ascii) :
  in_class c = is_punctuation c && negb (Ascii.eqb c backslash).
Proof. destruct c as [[] [] [] [] [] [] [] []]; vm_compute; reflexivity. Qed.

Lemma in_class_punctuation (c : Ascii.ascii) :
  is_punctuation c = true → c ≠ backslash → in_class c = true.
Proof.
  intros Hc Hne. rewrite in_class_spec, Hc. simpl.
  destruct (Ascii.eqb_spec c backslash); done.
Qed.

Lemma Forall_chars_lower (s : string) :
  Forall (λ c, is_upper c = false) (chars (lower s)).
Proof.
  induction s as [|c s IH]; simpl; [constructor|].
  constructor; [apply to_lower_not_upper|done].
Qed.

(** A replacement only puts characters of the text or of the rewrite in its
    result. *)
Lemma Forall_chars_replace_from (P : Ascii.ascii → Prop)
    (pattern rewrite s : string) (skip : nat) :
  Forall P (chars s) → Forall P (chars rewrite) →
  Forall P (chars (replace_from skip pattern rewrite s)).
Proof.
  intros Hs Hr. revert skip.
  induction s as [|c s IH]; intros skip; [constructor|].
  apply Forall_cons in Hs as [Hc Hs]. cbn [replace_from].
  destruct skip as [|skip]; [|by apply IH].
  destruct (String.prefix pattern (String c s)).
  - rewrite chars_app. apply Forall_app. split; [done|by apply IH].
  - constructor; [done|by apply IH].
Qed.

Lemma Forall_chars_punctuation (P : Ascii.ascii → Prop) (s : string) :
  P space → Forall P (chars s) →
  Forall P (chars (regex_replace_punctuation s)).
Proof.
  intros Hspace Hs. induction s as [|c s IH]; simpl; [constructor|].
  apply Forall_cons in Hs as [Hc Hs].
  destruct (in_class c); simpl; repeat constructor; auto.
Qed.

(** The standardised text has no capital letter. *)
Theorem standardization_has_no_capitals (input_string : string) :
  Forall (λ c, is_upper c = false) (chars (custom_standardization input_string)).
Proof.
  unfold custom_standardization, regex_replace_text.
  apply Forall_chars_punctuation; [reflexivity|].
  apply Forall_chars_replace_from.
  - apply Forall_chars_lower.
  - repeat constructor.
Qed.

Lemma punctuation_after_space (s : string) (i : nat) (c : Ascii.ascii) :
  chars (regex_replace_punctuation s) !! i = Some c →
  in_class c = true →
  ∃ j, i = S j ∧ chars (regex_replace_punctuation s) !! j = Some space.
Proof.
  revert i. induction s as [|a s IH]; intros i Hi Hc; simpl in *; [done|].
  destruct (in_class a) eqn:Ha; simpl in *.
  - destruct i as [|[|i]]; simpl in *.
    + injection Hi as <-. done.
    + by exists 0%nat.
    + destruct (IH i Hi Hc) as (j & -> & Hj). by exists (S (S j)).
  - destruct i as [|i]; simpl in *.
    + injection Hi as <-. congruence.
    + destruct (IH i Hi Hc) as (j & -> & Hj). by exists (S j).
Qed.

(** In the standardised text every punctuation character other than the
    backslash comes right after a space, so that splitting at white space
    makes it the start of a token of its own. *)
Theorem standardization_spaces_punctuation (input_string : string)
    (i : nat) (c : Ascii.ascii) :
  chars (custom_standardization input_string) !! i = Some c →
  is_punctuation c = true →
  c ≠ backslash →
  ∃ j, i = S j ∧ chars (custom_standardization input_string) !! j = Some space.
Proof.
  intros Hi Hc Hne. unfold custom_standardization in *.
  eapply punctuation_after_space; [exact Hi|].
  by apply in_class_punctuation.
Qed.

Lemma lower_id (s : string) :
  Forall (λ c, is_upper c = false) (chars s) → lower s = s.
Proof.
  induction s as [|c s IH]; simpl; [done|].
  intros [Hc Hs]%Forall_cons. by rewrite to_lower_id, IH.
Qed.

Lemma replace_br_id (s : string) :
  Forall (λ c, in_class c = false) (chars s) →
  replace_from 0 "<br />" " " s = s.
Proof.
  induction s as [|c s IH]; [done|].
  intros [Hc Hs]%Forall_cons. cbn [replace_from].
  assert (String.prefix "<br />" (String c s) = false) as ->.
  { cbn [String.prefix]. destruct (Ascii.ascii_dec _ c) as [<-|]; [done|done]. }
  by rewrite IH.
Qed.

Lemma punctuation_id (s : string) :
  Forall (λ c, in_class c = false) (chars s) →
  regex_replace_punctuation s = s.
Proof.
  induction s as [|c s IH]; simpl; [done|].
  intros [Hc Hs]%Forall_cons. by rewrite Hc, IH.
Qed.

(** A text without capital letters whose only punctuation characters are
    backslashes is returned as it is: the backslash gets no space. *)
Theorem standardization_keeps_clean_text (input_string : string) :
  Forall (λ c, is_upper c = false ∧ (is_punctuation c = true → c = backslash))
         (chars input_string) →
  custom_standardization input_string = input_string.
Proof.
  intros Hclean. unfold custom_standardization, regex_replace_text.
  assert (Forall (λ c, is_upper c = false) (chars input_string)) as Hup
    by (eapply Forall_impl; [exact Hclean|]; by intros c [? ?]).
  assert (Forall (λ c, in_class c = false) (chars input_string)) as Hpunct.
  { eapply Forall_impl; [exact Hclean|]. intros c [_ Hc]. simpl in Hc.
    rewrite in_class_spec. destruct (is_punctuation c); [|done].
    rewrite (Hc eq_refl). reflexivity. }
  by rewrite lower_id, replace_br_id, punctuation_id.
Qed.

End StandardizationFacts.

Lemma standardization_spaces_punctuation_witness :
  ∃ j, 5%nat = S j
       ∧ Data.chars (Data.custom_standardization "Fine!<br />") !! j
         = Some Data.space.
Proof.
  apply (standardization_spaces_punctuation "Fine!<br />" 5 (Ascii.ascii_of_nat 33));
    [reflexivity|reflexivity|discriminate].
Defined.

Lemma standardization_keeps_clean_text_witness :
  Data.custom_standardization "data\temp is" = "data\temp is".
Proof.
  apply (standardization_keeps_clean_text "data\temp is").
  repeat constructor; discriminate.
Defined.

(** A review with capitals, a line break tag and punctuation. *)
Example standardization_example :
  Data.custom_standardization "Great film.<br />Loved it!"
  = "great film . loved it !".
Proof. reflexivity. Qed.
(** ** Inputs and labels *)

Section LabelFacts.
Import Data.

Lemma py_slice_to_minus_one {A} (l : list A) :
  py_slice_to l (-1) = take (length l - 1) l.
Proof.
  unfold py_slice_to, len. rewrite bool_decide_true by lia.
  f_equal. lia.
Qed.

Lemma py_slice_from_one {A} (l : list A) : py_slice_from l 1 = drop 1 l.
Proof. unfold py_slice_from. by rewrite bool_decide_false by lia. Qed.

(** For every text of the batch, the inputs are the tokenised text without
    its last token and the labels are the tokenised text without its first
    token: both have one token less than the text, and the label at
    position [i] is the token at position [i + 1], which is also the input
    at position [i + 1] where there is one. *)
Theorem labels_are_inputs_shifted_by_one (vectorize_layer : string → list Z)
    (text : list string) (s : nat) (sentence : string) :
  text !! s = Some sentence →
  let tokens := vectorize_layer sentence in
  let '(x, y) := prepare_lm_inputs_labels vectorize_layer text in
  ∃ xs ys,
    x !! s = Some xs ∧ y !! s = Some ys
    ∧ length xs = (length tokens - 1)%nat
    ∧ length ys = (length tokens - 1)%nat
    ∧ (∀ i, (i < length tokens - 1)%nat →
         xs !! i = tokens !! i ∧ ys !! i = tokens !! S i)
    ∧ (∀ i, (S i < length tokens - 1)%nat → ys !! i = xs !! S i).
Proof.
  intros Hs tokens. unfold prepare_lm_inputs_labels. cbv zeta.
  exists (take (length tokens - 1) tokens), (drop 1 tokens).
  rewrite !list_lookup_fmap, Hs. simpl.
  rewrite py_slice_to_minus_one, py_slice_from_one. fold tokens.
  split; [done|]. split; [done|].
  split; [rewrite length_take; lia|].
  split; [rewrite length_drop; lia|].
  split.
  - intros i Hi. by rewrite lookup_take_lt, lookup_drop by done.
  - intros i Hi. by rewrite lookup_take_lt, lookup_drop by lia.
Qed.

End LabelFacts.

Lemma labels_are_inputs_shifted_by_one_witness :
  let tokens := (λ _ : string, [7; 8; 9; 0]) "a good film" in
  let '(x, y) := Data.prepare_lm_inputs_labels (λ _, [7; 8; 9; 0]) ["a good film"] in
  ∃ xs ys,
    x !! 0%nat = Some xs ∧ y !! 0%nat = Some ys
    ∧ length xs = (length tokens - 1)%nat
    ∧ length ys = (length tokens - 1)%nat
    ∧ (∀ i, (i < length tokens - 1)%nat →
         xs !! i = tokens !! i ∧ ys !! i = tokens !! S i)
    ∧ (∀ i, (S i < length tokens - 1)%nat → ys !! i = xs !! S i).
Proof.
  apply (labels_are_inputs_shifted_by_one (λ _, [7; 8; 9; 0]) ["a good film"]
           0 "a good film").
  reflexivity.
Defined.

(** ** The prompt tokens *)

Section PromptFacts.
Import Data Sampler.

Lemma arange_S (n : nat) : arange (S n) = arange n ++ [Z.of_nat n].
Proof. unfold arange. by rewrite seq_S, fmap_app. Qed.

Lemma build_word_to_index_snoc (vocab : list string) (w : string) :
  build_word_to_index (vocab ++ [w])
  = <[w := Z.of_nat (length vocab)]> (build_word_to_index vocab).
Proof.
  unfold build_word_to_index.
  rewrite length_app, Nat.add_1_r, arange_S.
  rewrite zip_with_app by (by rewrite length_arange).
  by rewrite foldl_app.
Qed.

(** The dictionary maps a word to the index of its last occurrence in the
    vocabulary, and holds nothing else. *)
Lemma lookup_build_word_to_index (vocab : list string) (w : string) (i : Z) :
  build_word_to_index vocab !! w = Some i ↔
  ∃ n : nat, i = Z.of_nat n ∧ vocab !! n = Some w
             ∧ ∀ m, (n < m)%nat → vocab !! m ≠ Some w.
Proof.
  revert i. induction vocab as [|v vocab IH] using rev_ind; intros i.
  { unfold build_word_to_index. simpl. rewrite lookup_empty.
    split; [done|]. by intros (n & _ & Hn & _). }
  rewrite build_word_to_index_snoc.
  destruct (decide (v = w)) as [->|Hne].
  - rewrite lookup_insert_eq. split.
    + intros [= <-]. exists (length vocab).
      split; [done|]. split; [by rewrite lookup_app_r, Nat.sub_diag|].
      intros m Hm. rewrite lookup_ge_None_2; [done|].
      rewrite length_app. simpl. lia.
    + intros (n & -> & Hn & Hlast).
      destruct (decide (n = length vocab)) as [->|Hn']; [done|].
      exfalso. apply (Hlast (length vocab)).
      * apply lookup_lt_Some in Hn. rewrite length_app in Hn. simpl in Hn. lia.
      * by rewrite lookup_app_r, Nat.sub_diag.
  - rewrite lookup_insert_ne by done. rewrite IH. split.
    + intros (n & -> & Hn & Hlast). exists n.
      split; [done|]. split; [by apply lookup_app_l_Some|].
      intros m Hm Hw. apply lookup_app_Some in Hw as [Hw|[_ Hw]].
      * by apply (Hlast m).
      * destruct (m - length vocab)%nat; [|done]. simpl in Hw. congruence.
    + intros (n & -> & Hn & Hlast). exists n. split; [done|].
      apply lookup_app_Some in Hn as [Hn|[_ Hn]].
      * split; [done|]. intros m Hm Hw. apply (Hlast m Hm).
        by apply lookup_app_l_Some.
      * destruct (n - length vocab)%nat; [|done]. simpl in Hn. congruence.
Qed.

Lemma build_word_to_index_None (vocab : list string) (w : string) :
  build_word_to_index vocab !! w = None ↔ w ∉ vocab.
Proof.
  split.
  - intros Hnone Hin. apply list_elem_of_lookup in Hin as [n Hn].
    induction vocab as [|v vocab IH] using rev_ind; [done|].
    rewrite build_word_to_index_snoc in Hnone.
    destruct (decide (v = w)) as [->|Hne].
    + by rewrite lookup_insert_eq in Hnone.
    + rewrite lookup_insert_ne in Hnone by done.
      apply lookup_app_Some in Hn as [Hn|[_ Hn]]; [by apply IH|].
      destruct (n - length vocab)%nat; [|done]. simpl in Hn. congruence.
  - intros Hnot. destruct (build_word_to_index vocab !! w) as [i|] eqn:Hi; [|done].
    apply lookup_build_word_to_index in Hi as (n & _ & Hn & _).
    exfalso. apply Hnot. by eapply list_elem_of_lookup_2.
Qed.

(** The token of one word: the index of a vocabulary word, which
    [detokenize] maps back to the word, or 1 for a word that is not in the
    vocabulary. *)
Lemma dict_get_word (vocab : list string) (w : string) :
  (w ∈ vocab ∧ ∃ n : nat, dict_get (build_word_to_index vocab) w 1 = Z.of_nat n
                          ∧ vocab !! n = Some w)
  ∨ ((w ∉ vocab) ∧ dict_get (build_word_to_index vocab) w 1 = 1).
Proof.
  unfold dict_get.
  destruct (build_word_to_index vocab !! w) as [i|] eqn:Hi.
  - apply lookup_build_word_to_index in Hi as (n & -> & Hn & _).
    left. split; [by eapply list_elem_of_lookup_2|]. by exists n.
  - right. split; [by apply build_word_to_index_None|done].
Qed.

(** Round trip.  A prompt word that is in the vocabulary is printed back
    as it is; any other word is printed as the word at index 1 (the
    unknown-word token of the vocabulary), or makes [detokenize] fail when
    the vocabulary has fewer than two words. *)
Theorem prompt_tokens_round_trip (self : TextGenerator) (words : list string) :
  mapM (detokenize self)
       (Data.start_tokens (build_word_to_index (index_to_word self)) words)
  = mapM (λ w, if decide (w ∈ index_to_word self) then Ok w
               else from_option IndexError (index_to_word self !! 1%nat))
         words.
Proof.
  unfold Data.start_tokens. induction words as [|w words IH]; [done|].
  rewrite fmap_cons, !mapM_result_cons, IH. f_equal.
  unfold detokenize.
  destruct (dict_get_word (index_to_word self) w) as [[Hin (n & -> & Hn)]|[Hnot ->]].
  - rewrite decide_True by done. by apply py_index_nat.
  - rewrite decide_False by done.
    unfold py_index. cbv zeta.
    rewrite (bool_decide_false (1 < 0)), bool_decide_true by lia. done.
Qed.

(** Every token of the prompt is a valid index into the vocabulary, as soon
    as the vocabulary has two words. *)
Theorem prompt_tokens_are_valid (vocab words : list string) :
  (2 ≤ length vocab)%nat →
  Forall (λ t, 0 ≤ t < len vocab) (Data.start_tokens (build_word_to_index vocab) words).
Proof.
  intros Hvocab. unfold Data.start_tokens. apply Forall_fmap, Forall_forall.
  intros w _. simpl. unfold len.
  destruct (dict_get_word vocab w) as [[_ (n & -> & Hn)]|[_ ->]]; [|lia].
  apply lookup_lt_Some in Hn. lia.
Qed.

End PromptFacts.

Lemma prompt_tokens_are_valid_witness :
  Forall (λ t, 0 ≤ t < len Toy.vocab)
         (Data.start_tokens (Data.build_word_to_index Toy.vocab)
            ["this"; "movie"; "is"; "wonderful"]).
Proof.
  apply (prompt_tokens_are_valid Toy.vocab ["this"; "movie"; "is"; "wonderful"]).
  simpl. lia.
Defined.

(** The prompt of the notebook on the small vocabulary, and a word that is
    not in it. *)
Example prompt_tokens_example :
  Data.start_tokens (Data.build_word_to_index Toy.vocab)
    ["this"; "movie"; "is"; "wonderful"]
  = [5; 12; 9; 1].
Proof. reflexivity. Qed.
(** ** Edge cases of the callback *)

Lemma on_epoch_end_ext_witness :
  Sampler.on_epoch_end Toy.predict Q_exp Toy.uniform 10 (Toy.generator 3 10) 0
    Toy.initial
  = Sampler.on_epoch_end
      (λ x, if bool_decide (length x = 80%nat) then Toy.predict x else [])
      Q_exp Toy.uniform 10 (Toy.generator 3 10) 0 Toy.initial.
Proof.
  apply (on_epoch_end_ext Toy.predict
           (λ x, if bool_decide (length x = 80%nat) then Toy.predict x else [])
           Q_exp Toy.uniform).
  intros x Hx. by rewrite bool_decide_true.
Defined.

Section EdgeFacts.
Import Sampler.

Variable predict : list Z → list (list Q).
Variable exp : Q → Q.
Variable uniform : nat → Q.

(** On an epoch that [print_every] does not divide, the callback prints
    nothing, consumes no draw and never calls the model: all it does is to
    create its working copy of the prompt. *)
Theorem skipped_epoch_prints_nothing (self : TextGenerator) (fuel : nat)
    (epoch : Z) (st : state) (prompt : list Z) :
  heap st !! start_tokens self = Some prompt →
  print_every self ≠ 0 →
  (epoch + 1) `mod` print_every self ≠ 0 →
  ∃ l, heap st !! l = None
       ∧ on_epoch_end predict exp uniform fuel self epoch st
         = Done () {| heap := <[l := prompt]> (heap st);
                      draws := draws st; stdout := stdout st |}.
Proof.
  intros Hprompt Hevery Hskip. exists (fresh (dom (heap st))).
  split; [apply not_elem_of_dom, is_fresh|].
  unfold on_epoch_end, working_copy, mbind, M_bind, read, alloc, lift, py_mod.
  rewrite Hprompt. rewrite bool_decide_false by done.
  by rewrite bool_decide_true by done.
Qed.

(** With [print_every = 0] every call of the callback raises
    [ZeroDivisionError], after the working copy was made and before anything
    is generated or printed. *)
Theorem zero_print_every_raises (self : TextGenerator) (fuel : nat)
    (epoch : Z) (st : state) (prompt : list Z) :
  heap st !! start_tokens self = Some prompt →
  print_every self = 0 →
  ∃ l, heap st !! l = None
       ∧ on_epoch_end predict exp uniform fuel self epoch st
         = Raised ZeroDivisionError
             {| heap := <[l := prompt]> (heap st);
                draws := draws st; stdout := stdout st |}.
Proof.
  intros Hprompt Hevery. exists (fresh (dom (heap st))).
  split; [apply not_elem_of_dom, is_fresh|].
  unfold on_epoch_end, working_copy, mbind, M_bind, read, alloc, lift, py_mod.
  rewrite Hprompt. by rewrite bool_decide_true by done.
Qed.

(** With a negative budget the loop body never runs: the callback prints
    the prompt alone, without calling the model or drawing a number. *)
Theorem negative_budget_prints_prompt (self : TextGenerator) (fuel : nat)
    (epoch : Z) (st : state) (prompt : list Z) (words : list string) :
  heap st !! start_tokens self = Some prompt →
  max_tokens self < 0 →
  print_every self ≠ 0 →
  (epoch + 1) `mod` print_every self = 0 →
  mapM (detokenize self) prompt = Ok words →
  (0 < fuel)%nat →
  ∃ st',
    on_epoch_end predict exp uniform fuel self epoch st = Done () st'
    ∧ stdout st' = stdout st ++ [generated_text (join " " words)]
    ∧ draws st' = draws st
    ∧ untouched st st'.
Proof.
  intros Hprompt Hbudget Hevery Hepoch Hwords Hfuel.
  destruct fuel as [|fuel]; [lia|].
  cut (wp (on_epoch_end predict exp uniform (S fuel) self epoch)
          (λ _ st', stdout st' = stdout st ++ [generated_text (join " " words)]
                    ∧ draws st' = draws st
                    ∧ untouched st st')
          (λ _ _, False) st).
  { unfold wp.
    destruct (on_epoch_end _ _ _ _ _ _ st) as [[] st'| |]; [|done..].
    intros Hpost. by exists st'. }
  unfold on_epoch_end, working_copy.
  apply wp_bind, wp_bind, wp_read. rewrite Hprompt.
  apply wp_alloc. intros sl Hsl.
  apply wp_bind, wp_lift. unfold py_mod.
  rewrite bool_decide_false by done.
  rewrite bool_decide_false by (intros Hr; by apply Hr).
  apply wp_bind, wp_alloc. cbn [heap draws stdout]. intros gl Hgl.
  assert (sl ≠ gl) as Hne by (intros <-; by rewrite lookup_insert_eq in Hgl).
  assert (start_tokens self ≠ sl) as Hp1 by (intros Heq; congruence).
  assert (start_tokens self ≠ gl) as Hp2.
  { intros Heq. rewrite <- Heq, lookup_insert_ne in Hgl by done. congruence. }
  apply wp_bind. cbn [generate]. rewrite bool_decide_false by lia.
  apply wp_ret.
  apply wp_bind, wp_read. cbn [heap draws stdout].
  rewrite !lookup_insert_ne, Hprompt by done.
  apply wp_bind, wp_read. cbn [heap draws stdout]. rewrite lookup_insert_eq.
  apply wp_bind, wp_lift. rewrite app_nil_r, Hwords.
  apply wp_print. cbn [heap draws stdout].
  split; [done|]. split; [done|].
  intros l [v Hl]. cbn [heap].
  rewrite !lookup_insert_ne; [done|congruence|].
  intros <-. rewrite lookup_insert_ne in Hgl by congruence. congruence.
Qed.

End EdgeFacts.

Section WindowContents.
Import Sampler.

(** For a working sequence of at most [maxlen] tokens, the window starts
    with the sequence, holds zeros after it, and [sample_index] is the
    position of the last token of the sequence in the window. *)
Theorem window_is_sequence_then_zeros (tokens : list Z) :
  len tokens ≤ maxlen →
  take (length tokens) (model_input tokens).1 = tokens
  ∧ drop (length tokens) (model_input tokens).1
    = replicate (Z.to_nat maxlen - length tokens) 0
  ∧ (model_input tokens).2 = len tokens - 1
  ∧ (tokens ≠ [] →
     (model_input tokens).1 !! Z.to_nat (model_input tokens).2 = last tokens).
Proof.
  intros Hlen.
  assert (model_input tokens
          = (tokens ++ replicate (Z.to_nat maxlen - length tokens) 0, len tokens - 1))
    as ->.
  { destruct (decide (len tokens < maxlen)) as [Hlt|Hge].
    - rewrite model_input_shorter by done. unfold len. do 3 f_equal. lia.
    - rewrite model_input_exact by lia.
      replace (Z.to_nat maxlen - length tokens)%nat with 0%nat
        by (unfold len in *; lia).
      simpl. rewrite app_nil_r. f_equal. lia. }
  simpl. split; [by rewrite take_app_length|].
  split; [by rewrite drop_app_length|]. split; [done|].
  intros Hne. rewrite last_lookup, lookup_app_l.
  - f_equal. unfold len. lia.
  - destruct tokens; [done|]. unfold len. simpl. lia.
Qed.

(** With an empty prompt [sample_index] is [-1]: the first token is sampled
    from the last row of the model's output on a window of 80 zeros. *)
Theorem empty_prompt_samples_last_row (y : list (list Q)) :
  length y = Z.to_nat maxlen →
  model_input [] = (replicate 80 0, -1)
  ∧ py_index y (model_input []).2 = from_option IndexError (y !! 79%nat).
Proof.
  intros Hy. split; [reflexivity|].
  change ((model_input []).2) with (-1).
  unfold py_index, len. cbv zeta. rewrite Hy.
  rewrite (bool_decide_true (-1 < 0)) by lia.
  change (-1 + Z.of_nat (Z.to_nat maxlen)) with 79.
  by rewrite bool_decide_true by lia.
Qed.

End WindowContents.

Lemma skipped_epoch_prints_nothing_witness :
  ∃ l, heap Toy.initial !! l = None
       ∧ Sampler.on_epoch_end Toy.predict Q_exp Toy.uniform 10
           {| Sampler.max_tokens := 3; Sampler.start_tokens := Toy.prompt;
              Sampler.index_to_word := Toy.vocab; Sampler.print_every := 2;
              Sampler.k := 10 |} 0 Toy.initial
         = Done () {| heap := <[l := [5; 12; 9]]> (heap Toy.initial);
                      draws := draws Toy.initial; stdout := stdout Toy.initial |}.
Proof.
  apply (skipped_epoch_prints_nothing Toy.predict Q_exp Toy.uniform
           {| Sampler.max_tokens := 3; Sampler.start_tokens := Toy.prompt;
              Sampler.index_to_word := Toy.vocab; Sampler.print_every := 2;
              Sampler.k := 10 |} 10 0 Toy.initial [5; 12; 9]).
  - reflexivity.
  - discriminate.
  - discriminate.
Defined.

Lemma zero_print_every_raises_witness :
  ∃ l, heap Toy.initial !! l = None
       ∧ Sampler.on_epoch_end Toy.predict Q_exp Toy.uniform 10
           {| Sampler.max_tokens := 3; Sampler.start_tokens := Toy.prompt;
              Sampler.index_to_word := Toy.vocab; Sampler.print_every := 0;
              Sampler.k := 10 |} 0 Toy.initial
         = Raised ZeroDivisionError
             {| heap := <[l := [5; 12; 9]]> (heap Toy.initial);
                draws := draws Toy.initial; stdout := stdout Toy.initial |}.
Proof.
  apply (zero_print_every_raises Toy.predict Q_exp Toy.uniform
           {| Sampler.max_tokens := 3; Sampler.start_tokens := Toy.prompt;
              Sampler.index_to_word := Toy.vocab; Sampler.print_every := 0;
              Sampler.k := 10 |} 10 0 Toy.initial [5; 12; 9]).
  - reflexivity.
  - reflexivity.
Defined.

Lemma negative_budget_prints_prompt_witness :
  ∃ st',
    Toy.run 1 (-1) 10 = Done () st'
    ∧ stdout st' = stdout Toy.initial
                   ++ [Sampler.generated_text (join " " ["this"; "movie"; "is"])]
    ∧ draws st' = draws Toy.initial
    ∧ untouched Toy.initial st'.
Proof.
  apply (negative_budget_prints_prompt Toy.predict Q_exp Toy.uniform
           (Toy.generator (-1) 10) 1 0 Toy.initial [5; 12; 9]
           ["this"; "movie"; "is"]).
  - reflexivity.
  - reflexivity.
  - discriminate.
  - reflexivity.
  - reflexivity.
  - lia.
Defined.

Lemma window_is_sequence_then_zeros_witness :
  take (length [5; 12; 9]) (Sampler.model_input [5; 12; 9]).1 = [5; 12; 9]
  ∧ drop (length [5; 12; 9]) (Sampler.model_input [5; 12; 9]).1
    = replicate (Z.to_nat Sampler.maxlen - length [5; 12; 9]) 0
  ∧ (Sampler.model_input [5; 12; 9]).2 = len [5; 12; 9] - 1
  ∧ ([5; 12; 9] ≠ [] →
     (Sampler.model_input [5; 12; 9]).1 !! Z.to_nat (Sampler.model_input [5; 12; 9]).2
     = last [5; 12; 9]).
Proof.
  apply (window_is_sequence_then_zeros [5; 12; 9]).
  vm_compute. discriminate.
Defined.

Lemma empty_prompt_samples_last_row_witness :
  Sampler.model_input [] = (replicate 80 0, -1)
  ∧ py_index (Toy.predict (replicate 80 0)) (Sampler.model_input []).2
    = from_option IndexError (Toy.predict (replicate 80 0) !! 79%nat).
Proof.
  apply (empty_prompt_samples_last_row (Toy.predict (replicate 80 0))).
  reflexivity.
Defined.
(** ** Greedy sampling *)

Section GreedyFacts.
Import Sampler.

(** With [top_k = 1] sampling is greedy: whatever the uniform draw, the
    sampler returns an index that holds a largest logit. *)
Theorem top_1_sampling_is_greedy (exp : Q → Q) (uniform : nat → Q)
    (self : TextGenerator) (logits : list Q) (st : state) :
  (∀ x, 0 < exp x)%Q →
  (0 <= uniform (draws st) < 1)%Q →
  k self = 1 →
  logits ≠ [] →
  ∃ tok v,
    sample_from exp uniform self logits st
    = Done tok {| heap := heap st; draws := S (draws st); stdout := stdout st |}
    ∧ 0 ≤ tok
    ∧ logits !! Z.to_nat tok = Some v
    ∧ ∀ (j : nat) w, logits !! j = Some w → (w <= v)%Q.
Proof.
  intros Hexp Hu Hk Hne.
  assert (0 ≤ 1 ≤ len logits) as Hrange.
  { destruct logits; [done|]. unfold len. simpl. lia. }
  destruct (top_k_spec logits 1 Hrange) as
    (vals & idxs & Htop & Hvals & Hidxs & _ & Hlookup & Hmax).
  destruct idxs as [|t [|? ?]]; [done| |done].
  destruct vals as [|v [|? ?]]; [done| |done].
  destruct (Hlookup 0%nat t eq_refl) as [Ht Hv]. simpl in Hv.
  destruct (softmax_distribution exp Hexp [v]) as [Hpos Hsum]; [done|].
  destruct (choice_Done uniform [t] (softmax exp [v]) st) as (tok & Hchoice & Htok);
    [done|done|done|done|done|].
  apply list_elem_of_singleton in Htok as ->.
  exists t, v. split; [|split; [lia|split; [done|]]].
  - unfold sample_from, mbind, M_bind, lift. by rewrite Hk, Htop.
  - intros j w Hw. destruct (decide (Z.of_nat j = t)) as [<-|Hj].
    + rewrite Nat2Z.id in Hv. rewrite Hv in Hw. injection Hw as <-. apply Qle_refl.
    + apply (Hmax t j v w); [by apply list_elem_of_singleton|done|done|].
      by intros Hin%list_elem_of_singleton.
Qed.

End GreedyFacts.

Lemma top_1_sampling_is_greedy_witness :
  ∃ tok v,
    Sampler.sample_from Q_exp Toy.uniform (Toy.generator 3 1) [3; -1; 7; 2; 5]%Q
      Toy.initial
    = Done tok {| heap := heap Toy.initial; draws := S (draws Toy.initial);
                  stdout := stdout Toy.initial |}
    ∧ 0 ≤ tok
    ∧ [3; -1; 7; 2; 5]%Q !! Z.to_nat tok = Some v
    ∧ ∀ (j : nat) w, [3; -1; 7; 2; 5]%Q !! j = Some w → (w <= v)%Q.
Proof.
  apply (top_1_sampling_is_greedy Q_exp Toy.uniform (Toy.generator 3 1)
           [3; -1; 7; 2; 5]%Q Toy.initial).
  - exact Q_exp_pos.
  - split; vm_compute; [discriminate|reflexivity].
  - reflexivity.
  - discriminate.
Defined.

(** ** Shape and rows of the causal mask *)

Section MaskShape.
Import Mask.

Lemma tile0_singleton {A} (reps : nat) (t : A) : tile0 reps [t] = replicate reps t.
Proof. unfold tile0. induction reps as [|r IH]; simpl; [done|]. by rewrite IH. Qed.

(** The mask has shape [(batch_size, n_dest, n_src)] and holds the same
    matrix for every example of the batch. *)
Theorem mask_is_broadcast_over_batch (batch_size n_dest n_src : nat) :
  causal_attention_mask batch_size n_dest n_src
  = replicate batch_size (lower_right n_dest n_src)
  ∧ has_shape batch_size n_dest n_src
      (causal_attention_mask batch_size n_dest n_src).
Proof.
  unfold causal_attention_mask. rewrite tile0_singleton.
  split; [done|]. split; [apply length_replicate|].
  apply Forall_replicate. apply shape_lower_right.
Qed.

(** Row [i] of the mask allows a prefix of the sources and nothing else:
    the first [i + 1 + n_src - n_dest] of them, cut to the range from [0] to
    [n_src].  So the last row allows every source, a square mask allows
    [i + 1] sources in row [i], and with more destinations than sources the
    first [n_dest - n_src] rows allow none. *)
Theorem mask_row_allows_prefix (batch_size n_dest n_src b i : nat) :
  (b < batch_size)%nat → (i < n_dest)%nat →
  let allowed :=
    Z.to_nat (Z.min (Z.of_nat n_src)
                (Z.max 0 (Z.of_nat i + 1 + Z.of_nat n_src - Z.of_nat n_dest))) in
  (m ← causal_attention_mask batch_size n_dest n_src !! b; m !! i)
  = Some (replicate allowed true ++ replicate (n_src - allowed) false).
Proof.
  intros Hb Hi allowed. unfold causal_attention_mask.
  rewrite lookup_tile0_singleton by done. simpl.
  unfold lower_right. rewrite list_lookup_fmap, lookup_arange by done. simpl.
  f_equal. apply list_eq. intros j.
  destruct (decide (j < n_src)%nat) as [Hj|Hj]; last first.
  { rewrite !lookup_ge_None_2; [done| |].
    - rewrite length_app, !length_replicate. lia.
    - rewrite length_fmap, length_arange. lia. }
  rewrite list_lookup_fmap, lookup_arange by done. simpl.
  destruct (decide (j < allowed)%nat) as [Hlt|Hge].
  - rewrite lookup_app_l by (rewrite length_replicate; lia).
    rewrite lookup_replicate_2 by done. f_equal.
    rewrite Z.geb_leb. apply Z.leb_le. lia.
  - rewrite lookup_app_r by (rewrite length_replicate; lia).
    rewrite length_replicate, lookup_replicate_2 by lia. f_equal.
    rewrite Z.geb_leb. apply Z.leb_gt. lia.
Qed.

End MaskShape.

Lemma mask_row_allows_prefix_witness :
  let allowed := Z.to_nat (Z.min (Z.of_nat 5) (Z.max 0 (Z.of_nat 1 + 1 + Z.of_nat 5 - Z.of_nat 3))) in
  (m ← Mask.causal_attention_mask 2 3 5 !! 1%nat; m !! 1%nat)
  = Some (replicate allowed true ++ replicate (5 - allowed) false).
Proof.
  apply (mask_row_allows_prefix 2 3 5 1 1); lia.
Defined.
